(** * usercorn: the emulation harness, embedded and verified

    A shallow embedding of the Go sources [go/usercorn.go],
    [go/kernel/posix/io.go] and [go/kernel/posix/mman.go].

    Conventions.
    - A Go [uint64] is a [Z] in [0, 2^64); every arithmetic operation of
      the source is written with its wrap-around ([U64.add], [U64.sub]).
    - A Go [(value, err)] pair is a Rocq pair whose second component is an
      [option error]; a Go [panic] is the [Panicked] outcome.
    - The CPU engine and the host operating system are opaque
      collaborators of the harness: they are interfaces ([CPU], [Host]),
      and every theorem holds for all their implementations. *)

From Stdlib Require Import ZArith Lia Bool List Ascii String Sorted.
From stdpp Require Import base tactics option list gmap strings.

Local Open Scope Z_scope.

(** ** Machine integers *)

Module U64.

Definition modulus : Z := 2 ^ 64.

(** Reduction of a mathematical integer to a [uint64]. *)
Definition wrap (x : Z) : Z := x mod modulus.

Definition add (a b : Z) : Z := wrap (a + b).
Definition sub (a b : Z) : Z := wrap (a - b).

(** Go's unary [^x] on a [uint64]. *)
Definition not (a : Z) : Z := wrap (Z.lnot a).

(** The conversion [int64(x)] of a [uint64]. *)
Definition to_int64 (x : Z) : Z := if x <? 2 ^ 63 then x else x - modulus.

(** The conversion [uint64(x)] of an [int64]. *)
Definition of_int64 (x : Z) : Z := wrap x.

Definition in_range (x : Z) : Prop := 0 <= x < modulus.

End U64.

(** Wrap-around of the Go [int] type (64 bits on the supported hosts). *)
Module I64.
Definition wrap (x : Z) : Z := U64.to_int64 (U64.wrap x).
Definition add (a b : Z) : Z := wrap (a + b).
Definition sub (a b : Z) : Z := wrap (a - b).
End I64.

(** Protection bits of the engine binding. *)
Definition PROT_NONE : Z := 0.
Definition PROT_READ : Z := 1.
Definition PROT_WRITE : Z := 2.
Definition PROT_EXEC : Z := 4.
Definition PROT_ALL : Z := 7.

Definition UC_MEM_ALIGN : Z := 4096.

(** A Go [error]: a message, or a host [syscall.Errno]. *)
Inductive error : Type :=
  | Err (msg : string)
  | Errno_ (code : Z).

Definition ENOENT : Z := 2.
Definition ENOTDIR : Z := 20.

(** The value of a Go [panic], and what a call yields: it returns or it
    panics. *)
Inductive panic : Type :=
  | SyscallMissing (num : Z)
  | KernelNotFound (name : string)
  | SliceBounds (hi len : Z)
  | NilDereference
  | MakeSliceLen (len : Z).

Inductive outcome (A : Type) : Type :=
  | Returned (a : A)
  | Panicked (p : panic).

Arguments Returned {A} a.
Arguments Panicked {A} p.

(** The test [p == nil] of a pointer. *)
Definition is_nil {A : Type} (p : option A) : bool :=
  match p with
  | None => true
  | Some _ => false
  end.

Definition obind {A B : Type} (o : outcome A) (k : A -> outcome B) : outcome B :=
  match o with
  | Returned a => k a
  | Panicked p => Panicked p
  end.


(** ** Segments ([models.SegmentData], [models.Segment]) *)

(** A raw segment as the loader hands it out. *)
Record SegmentData : Type := mkSegmentData {
  sd_Addr : Z;
  sd_Size : Z;
  sd_Prot : Z;
  sd_Data : list Byte.byte * option error
}.

(** A page-aligned span [[Start, End)] with its protection. *)
Record Segment : Type := mkSegment {
  seg_Start : Z;
  seg_End : Z;
  seg_Prot : Z
}.

(** Modelled from the spec: the helper [align] is defined outside the
    files embedded here; it "rounds addr down and addr+size up to a page"
    and returns the new address and size. *)
Definition align (addr size : Z) (growl : bool) : Z * Z :=
  let mask := U64.not (UC_MEM_ALIGN - 1) in
  let right := Z.land (U64.add (U64.add addr size) (UC_MEM_ALIGN - 1)) mask in
  let addr' := Z.land addr mask in
  (addr', U64.sub right addr').

(** Modelled from the spec: [Segment.Overlaps] is defined outside the
    files embedded here; spans overlap "by start/end, not by protection":
    the start of one lies inside the other. *)
Definition Overlaps (s o : Segment) : bool :=
  ((seg_Start o <=? seg_Start s) && (seg_Start s <? seg_End o))
  || ((seg_Start s <=? seg_Start o) && (seg_Start o <? seg_End s)).

(** Modelled from the spec: [Segment.Merge] is defined outside the files
    embedded here; the receiver becomes the union of both spans and its
    protection "the bitwise OR of their constituents". *)
Definition Merge (s o : Segment) : Segment :=
  {| seg_Start := if seg_Start o <? seg_Start s then seg_Start o else seg_Start s;
     seg_End := if seg_End s <? seg_End o then seg_End o else seg_End s;
     seg_Prot := Z.lor (seg_Prot s) (seg_Prot o) |}.

(** The span computed for one raw segment at the head of the merge loop. *)
Definition span_of (seg : SegmentData) : Segment :=
  let '(addr, size) := align (sd_Addr seg) (sd_Size seg) true in
  {| seg_Start := addr; seg_End := U64.add addr size; seg_Prot := sd_Prot seg |}.

(** The inner loop [for _, s2 := range merged]: the first span that
    overlaps [s] absorbs it in place; [None] when the loop falls through. *)
Fixpoint merge_into (s : Segment) (merged : list Segment) : option (list Segment) :=
  match merged with
  | [] => None
  | s2 :: rest =>
      if Overlaps s2 s then Some (Merge s2 s :: rest)
      else match merge_into s rest with
           | Some rest' => Some (s2 :: rest')
           | None => None
           end
  end.

(** One iteration of the loop labelled [outer]. *)
Definition merge_span (merged : list Segment) (s : Segment) : list Segment :=
  match merge_into s merged with
  | Some merged' => merged'
  | None => merged ++ [s]
  end.

Definition merge_spans (spans : list Segment) : list Segment :=
  fold_left merge_span spans [].

(** The merge step of [mapBinary] (the block "merge overlapping
    segments"). *)
Definition merge_segments (segments : list SegmentData) : list Segment :=
  merge_spans (map span_of segments).

(** A merged span read back as a raw segment, to feed the merge step with
    its own result. *)
Definition as_raw (s : Segment) : SegmentData :=
  {| sd_Addr := seg_Start s;
     sd_Size := U64.sub (seg_End s) (seg_Start s);
     sd_Prot := seg_Prot s;
     sd_Data := ([], None) |}.

(** Two spans share an address. *)
Definition intersects (a b : Segment) : bool :=
  (Z.max (seg_Start a) (seg_Start b) <? Z.min (seg_End a) (seg_End b)).

Fixpoint pairwise_disjoint (l : list Segment) : bool :=
  match l with
  | [] => true
  | a :: rest => forallb (fun b => negb (intersects a b)) rest && pairwise_disjoint rest
  end.

(** An address lies in one of the spans. *)
Definition covers (l : list Segment) (x : Z) : Prop :=
  exists s, In s l /\ seg_Start s <= x < seg_End s.


(** ** Segment merging, for the proofs *)

(** A span whose end is not below its start, and one that holds an
    address. *)
Definition span_wf (s : Segment) : Prop := seg_Start s <= seg_End s.

Definition span_nonempty (s : Segment) : Prop := seg_Start s < seg_End s.

(** An address lies in the span. *)
Definition within (s : Segment) (x : Z) : Prop := seg_Start s <= x < seg_End s.

(** Spans in the order of their start addresses, as the program headers
    of an ELF file list them. *)
Definition by_start (spans : list Segment) : Prop :=
  StronglySorted (fun a b => seg_Start a <= seg_Start b) spans.

(** A raw segment whose page-aligned end stays inside the address
    space. *)
Definition no_wrap (seg : SegmentData) : Prop :=
  0 <= sd_Addr seg /\ 0 <= sd_Size seg
  /\ sd_Addr seg + sd_Size seg + (UC_MEM_ALIGN - 1) < U64.modulus.

(** Two spans share no address. *)
Definition apart (a b : Segment) : Prop := intersects a b = false.

(** The address lies in a span of the list that grants all the protection
    bits of [prot]. *)
Definition grants (l : list Segment) (x prot : Z) : Prop :=
  exists t, In t l /\ within t x /\ Z.land (seg_Prot t) prot = prot.

(** Rounding to a page, in arithmetic. *)
Definition page_down (x : Z) : Z := UC_MEM_ALIGN * (x / UC_MEM_ALIGN).
Definition page_up (x : Z) : Z := page_down (x + (UC_MEM_ALIGN - 1)).

(** ** Symbols and loaders ([models.Symbol], [models.Loader]) *)

Record Symbol : Type := mkSymbol {
  sym_Name : string;
  sym_Start : Z;
  sym_End : Z
}.

(** The zero value of [models.Symbol]. *)
Definition Symbol_zero : Symbol := mkSymbol "" 0 0.

Inductive LoaderType : Type := EXEC | DYN | UNKNOWN.

(** The opaque [models.Loader] capability, by the values of its methods. *)
Record Loader : Type := mkLoader {
  l_Arch : string;
  l_OS : string;
  l_Type : LoaderType;
  l_Entry : Z;
  l_Segments : list SegmentData * option error;
  l_Interp : string;
  l_Symbols : list Symbol * option error
}.

(** ** The engine and the host *)

(** The memory facade over the CPU engine (the embedded [*Unicorn]):
    [Mmap(hint, size)], [MemMapProt(addr, size, prot)],
    [MemWrite(addr, data)] and the register dump behind
    [StatusDiff.Changes]. [M] is the engine's state. *)
Class CPU (M : Type) : Type := {
  cpu_Mmap : Z -> Z -> M -> (Z * option error) * M;
  cpu_MemMapProt : Z -> Z -> Z -> M -> option error * M;
  cpu_MemWrite : Z -> list Byte.byte -> M -> option error * M;
  cpu_RegDump : M -> list Z
}.

(** The host process and file system, as far as the harness calls them.
    [H] is the host's state. *)
Class Host (H : Type) : Type := {
  filepath_Clean : string -> string;
  os_Stat : string -> H -> option error;
  os_Readlink : string -> H -> string * option error;
  loader_LoadFileArch : string -> string -> H -> Loader * option error;
  syscall_Close : Z -> H -> option error * H;
  syscall_Dup : Z -> H -> (Z * option error) * H;
  file_Seek : Z -> Z -> H -> H;
  file_Read : Z -> Z -> H -> (list Byte.byte * option error) * H
}.

(** [os.IsNotExist]. *)
Definition os_IsNotExist (err : option error) : bool :=
  match err with
  | Some (Errno_ code) => code =? ENOENT
  | _ => false
  end.

(** [filepath.IsAbs] on a Unix host. *)
Definition filepath_IsAbs (path : string) : bool :=
  match path with
  | String c _ => Ascii.eqb c "/"
  | EmptyString => false
  end.

(** [filepath.Join] of two elements: empty elements are ignored, the rest
    is joined by the separator and cleaned. *)
Definition filepath_Join {Hst : Type} {host : Host Hst} (a b : string) : string :=
  match a, b with
  | EmptyString, EmptyString => EmptyString
  | EmptyString, _ => filepath_Clean b
  | _, EmptyString => filepath_Clean a
  | _, _ => filepath_Clean (a ++ "/" ++ b)%string
  end.

(** What the hooks and the dispatcher print on the standard error stream,
    one event for each print call. *)
Inductive Event : Type :=
  | EvDisas (addr size : Z)
  | EvNewline
  | EvChanges (changed : Z)
  | EvFatalDeadlock (addr : Z) (sym : string)
  | EvSysIndent
  | EvSysTrace (name : string) (args : list Z)
  | EvSysTraceRet (ret : Z).

(** ** The emulator ([Usercorn]) *)

Record Usercorn (M : Type) : Type := mkUsercorn {
  mem : M;                          (* the embedded engine *)
  os : string;                      (* name of the guest OS, [OS()] *)
  exe : string;
  loader : Loader;
  interpLoader : option Loader;
  base : Z;
  interpBase : Z;
  brk : Z;
  TraceSys : bool;
  TraceExec : bool;
  TraceReg : bool;
  traceMatching : bool;
  ForceBase : Z;
  ForceInterpBase : Z;
  Demangle : bool;
  LoadPrefix : string;
  status : list Z;                  (* snapshot kept by [StatusDiff] *)
  stacktraceLen : Z;                (* [stacktrace.Len()] *)
  blockloop : option Z;             (* [blockloop.Loops], when not nil *)
  lastCode : Z;
  deadlock : Z;
  stderr : list Event;
  stopped : bool                    (* [Stop()] was called *)
}.

Arguments mkUsercorn {M}.
Arguments mem {M} _.
Arguments os {M} _.
Arguments exe {M} _.
Arguments loader {M} _.
Arguments interpLoader {M} _.
Arguments base {M} _.
Arguments interpBase {M} _.
Arguments brk {M} _.
Arguments TraceSys {M} _.
Arguments TraceExec {M} _.
Arguments TraceReg {M} _.
Arguments traceMatching {M} _.
Arguments ForceBase {M} _.
Arguments ForceInterpBase {M} _.
Arguments Demangle {M} _.
Arguments LoadPrefix {M} _.
Arguments status {M} _.
Arguments stacktraceLen {M} _.
Arguments blockloop {M} _.
Arguments lastCode {M} _.
Arguments deadlock {M} _.
Arguments stderr {M} _.
Arguments stopped {M} _.

(** Field updates of the emulator. *)
Definition set_mem {M : Type} (v : M) (u : Usercorn M) : Usercorn M :=
  let 'mkUsercorn f0 f1 f2 f3 f4 f5 f6 f7 f8 f9 f10 f11 f12 f13 f14 f15 f16 f17 f18 f19 f20 f21 f22 := u in
  mkUsercorn v f1 f2 f3 f4 f5 f6 f7 f8 f9 f10 f11 f12 f13 f14 f15 f16 f17 f18 f19 f20 f21 f22.
Definition set_interpLoader {M : Type} (v : option Loader) (u : Usercorn M) : Usercorn M :=
  let 'mkUsercorn f0 f1 f2 f3 f4 f5 f6 f7 f8 f9 f10 f11 f12 f13 f14 f15 f16 f17 f18 f19 f20 f21 f22 := u in
  mkUsercorn f0 f1 f2 f3 v f5 f6 f7 f8 f9 f10 f11 f12 f13 f14 f15 f16 f17 f18 f19 f20 f21 f22.
Definition set_brk {M : Type} (v : Z) (u : Usercorn M) : Usercorn M :=
  let 'mkUsercorn f0 f1 f2 f3 f4 f5 f6 f7 f8 f9 f10 f11 f12 f13 f14 f15 f16 f17 f18 f19 f20 f21 f22 := u in
  mkUsercorn f0 f1 f2 f3 f4 f5 f6 v f8 f9 f10 f11 f12 f13 f14 f15 f16 f17 f18 f19 f20 f21 f22.
Definition set_status {M : Type} (v : list Z) (u : Usercorn M) : Usercorn M :=
  let 'mkUsercorn f0 f1 f2 f3 f4 f5 f6 f7 f8 f9 f10 f11 f12 f13 f14 f15 f16 f17 f18 f19 f20 f21 f22 := u in
  mkUsercorn f0 f1 f2 f3 f4 f5 f6 f7 f8 f9 f10 f11 f12 f13 f14 f15 v f17 f18 f19 f20 f21 f22.
Definition set_lastCode {M : Type} (v : Z) (u : Usercorn M) : Usercorn M :=
  let 'mkUsercorn f0 f1 f2 f3 f4 f5 f6 f7 f8 f9 f10 f11 f12 f13 f14 f15 f16 f17 f18 f19 f20 f21 f22 := u in
  mkUsercorn f0 f1 f2 f3 f4 f5 f6 f7 f8 f9 f10 f11 f12 f13 f14 f15 f16 f17 f18 v f20 f21 f22.
Definition set_deadlock {M : Type} (v : Z) (u : Usercorn M) : Usercorn M :=
  let 'mkUsercorn f0 f1 f2 f3 f4 f5 f6 f7 f8 f9 f10 f11 f12 f13 f14 f15 f16 f17 f18 f19 f20 f21 f22 := u in
  mkUsercorn f0 f1 f2 f3 f4 f5 f6 f7 f8 f9 f10 f11 f12 f13 f14 f15 f16 f17 f18 f19 v f21 f22.
Definition set_stderr {M : Type} (v : list Event) (u : Usercorn M) : Usercorn M :=
  let 'mkUsercorn f0 f1 f2 f3 f4 f5 f6 f7 f8 f9 f10 f11 f12 f13 f14 f15 f16 f17 f18 f19 f20 f21 f22 := u in
  mkUsercorn f0 f1 f2 f3 f4 f5 f6 f7 f8 f9 f10 f11 f12 f13 f14 f15 f16 f17 f18 f19 f20 v f22.
Definition set_stopped {M : Type} (v : bool) (u : Usercorn M) : Usercorn M :=
  let 'mkUsercorn f0 f1 f2 f3 f4 f5 f6 f7 f8 f9 f10 f11 f12 f13 f14 f15 f16 f17 f18 f19 f20 f21 f22 := u in
  mkUsercorn f0 f1 f2 f3 f4 f5 f6 f7 f8 f9 f10 f11 f12 f13 f14 f15 f16 f17 f18 f19 f20 f21 v.

(** Appends one print to the standard error stream. *)
Definition eprint {M : Type} (e : Event) (u : Usercorn M) : Usercorn M :=
  set_stderr (stderr u ++ [e]) u.

(** ** Formatting with [%x] *)

Definition hex_digit (d : Z) : ascii :=
  nth (Z.to_nat d) (list_ascii_of_string "0123456789abcdef") "0"%char.

(** Digits of [n], most significant first; sixteen rounds cover a
    [uint64]. *)
Fixpoint fmt_hex_loop (rounds : nat) (n : Z) (acc : string) : string :=
  match rounds with
  | O => acc
  | S rounds' =>
      let acc' := String (hex_digit (n mod 16)) acc in
      if n / 16 =? 0 then acc' else fmt_hex_loop rounds' (n / 16) acc'
  end.

Definition fmt_hex (n : Z) : string := fmt_hex_loop 16 n "".

(** ** Symbolication *)

(** The body of the loop over [symbols] in the closure [symbolicate]:
    [acc] holds the map [nearest] and the running [min]. *)
Definition symbolicate_visit (addr : Z) (acc : gmap Z (list Symbol) * Z) (sym : Symbol)
  : gmap Z (list Symbol) * Z :=
  let '(nearest, min) := acc in
  if sym_Start sym =? 0 then acc
  else
    let dist := U64.to_int64 (U64.sub addr (sym_Start sym)) in
    if (0 <=? dist)
       && ((U64.add (sym_Start sym) (U64.of_int64 dist) <=? sym_End sym) || (sym_End sym =? 0))
       && negb (String.eqb (sym_Name sym) "")
    then
      let min' := if (dist <? min) || (min =? -1) then dist else min in
      (<[U64.of_int64 dist := (nearest !!! U64.of_int64 dist) ++ [sym]]> nearest, min')
    else acc.

(** The closure [symbolicate] of [Symbolicate]. The read
    [nearest[uint64(min)][0]] is of a key the loop has filled, so the
    default of [hd] is never returned (lemma [symbolicate_spec]). *)
Definition symbolicate (addr : Z) (symbols : list Symbol) : Symbol * Z :=
  match symbols with
  | [] => (Symbol_zero, 0)
  | _ =>
      let '(nearest, min) := fold_left (symbolicate_visit addr) symbols (∅, -1) in
      if 0 <? Z.of_nat (size nearest)
      then (hd Symbol_zero (nearest !!! U64.of_int64 min), U64.of_int64 min)
      else (Symbol_zero, 0)
  end.

Section Emulator.

Context {M : Type} {cpu : CPU M} {Hst : Type} {host : Host Hst}.

(** The external [models.Demangle]. *)
Variable models_Demangle : string -> string.

Definition Symbolicate (u : Usercorn M) (addr : Z) : string * option error :=
  let symbols := fst (l_Symbols (loader u)) in
  let interpSym :=
    match interpLoader u with
    | Some il => fst (l_Symbols il)
    | None => []
    end in
  let '(sym, sdist) := symbolicate (U64.sub addr (base u)) symbols in
  let '(isym, idist) := symbolicate (U64.sub addr (interpBase u)) interpSym in
  let '(sym, sdist) :=
    if ((idist <? sdist) && negb (String.eqb (sym_Name isym) ""))
       || String.eqb (sym_Name sym) ""
    then (isym, idist) else (sym, sdist) in
  if negb (String.eqb (sym_Name sym) "") then
    let name := if Demangle u then models_Demangle (sym_Name sym) else sym_Name sym in
    if 0 <? sdist then ((name ++ "+0x" ++ fmt_hex sdist)%string, None)
    else (name, None)
  else (sym_Name sym, None).

(** ** The path sandbox *)

Definition PrefixPath (u : Usercorn M) (h : Hst) (path : string) (force : bool) : string :=
  if filepath_IsAbs path && negb (String.eqb (LoadPrefix u) "") then
    let target := filepath_Join (LoadPrefix u) path in
    let err := os_Stat target h in
    let exists_ := negb (os_IsNotExist err) in
    if force || exists_ then target else path
  else path.

(** ** The program break *)

Definition Brk (addr : Z) (u : Usercorn M) : (Z * option error) * Usercorn M :=
  if 0 <? addr then
    let '(err, m) :=
      cpu_MemMapProt (brk u) (U64.sub addr (brk u)) (Z.lor PROT_READ PROT_WRITE) (mem u) in
    let u := set_mem m u in
    match err with
    | Some e => ((brk u, Some e), u)
    | None =>
        let u := set_brk addr u in
        ((brk u, None), u)
    end
  else ((brk u, None), u).

(** ** The code hook and deadlock detection *)

(** Register deltas [(old, new)], one for each register of the dump. *)
Definition Changes : Type := list (Z * Z).

(** Modelled from the spec: [StatusDiff] is defined outside the files
    embedded here; it "captures last-observed register values;
    [Changes()] returns the register deltas since the previous call and
    updates the snapshot". A register the snapshot does not hold yet reads
    as 0. *)
Definition StatusDiff_Changes (u : Usercorn M) : Changes * Usercorn M :=
  let regs := cpu_RegDump (mem u) in
  (imap (fun i v => (nth i (status u) 0, v)) regs, set_status regs u).

(** Modelled from the spec: [Changes.Count], the number of registers
    whose value differs from the snapshot. *)
Definition Changes_Count (cs : Changes) : Z :=
  Z.of_nat (length (List.filter (fun c => negb (fst c =? snd c)) cs)).

(** A method call on the pointer [changes], which is nil until
    [status.Changes()] was assigned to it. *)
Definition Count (changes : option Changes) : outcome Z :=
  match changes with
  | Some cs => Returned (Changes_Count cs)
  | None => Panicked NilDereference
  end.

Definition Print (changes : option Changes) (u : Usercorn M) : outcome (Usercorn M) :=
  match changes with
  | Some cs => Returned (eprint (EvChanges (Changes_Count cs)) u)
  | None => Panicked NilDereference
  end.

(** [u.Stop()]. *)
Definition Stop (u : Usercorn M) : Usercorn M := set_stopped true u.

(** The first half of the hook: the register diff and the disassembly
    line. *)
Definition hookCode_trace (addr size : Z) (u : Usercorn M)
  : outcome (option Changes * Usercorn M) :=
  let '(changes, u) :=
    if (addr =? lastCode u) || (TraceReg u && TraceExec u)
    then let '(cs, u') := StatusDiff_Changes u in (Some cs, u')
    else (None, u) in
  obind (if TraceExec u && is_nil (blockloop u) then Returned true
         else match blockloop u with
              | Some loops => Returned (loops =? 0)
              | None => Panicked NilDereference
              end) (fun disas =>
  if (disas : bool) then
    let u := eprint (EvDisas addr size) u in
    if negb (TraceReg u) then Returned (changes, eprint EvNewline u)
    else obind (Count changes) (fun n =>
         if n =? 0 then Returned (changes, eprint EvNewline u)
         else obind (Print changes u) (fun u => Returned (changes, u)))
  else Returned (changes, u)).

(** The second half: the deadlock counter. *)
Definition hookCode_deadlock (addr : Z) (changes : option Changes) (u : Usercorn M)
  : outcome (Usercorn M) :=
  obind
    (if addr =? lastCode u then
       let u := set_deadlock (I64.add (deadlock u) 1) u in
       obind (Count changes) (fun n =>
       obind (if 0 <? n then
                obind (if TraceReg u then Print changes u else Returned u) (fun u =>
                Returned (set_deadlock 0 u))
              else Returned u) (fun u =>
       if 2 <? deadlock u then
         let sym := fst (Symbolicate u addr) in
         let sym := if negb (String.eqb sym "") then (" (" ++ sym ++ ")")%string else sym in
         let u := eprint (EvFatalDeadlock addr sym) u in
         obind (Print changes u) (fun u => Returned (Stop u))
       else Returned u))
     else Returned (set_deadlock 0 u))
    (fun u => Returned (set_lastCode addr u)).

(** The callback registered for [HOOK_CODE]. *)
Definition hookCode (addr size : Z) (u : Usercorn M) : outcome (Usercorn M) :=
  if negb (traceMatching u) then Returned u
  else obind (hookCode_trace addr size u) (fun r => hookCode_deadlock addr (fst r) (snd r)).

(** One observation of the code hook: the engine, in state [m], calls
    the hook at [addr]. *)
Definition observe (u : Usercorn M) (o : Z * Z * M) : outcome (Usercorn M) :=
  let '(addr, size, m) := o in hookCode addr size (set_mem m u).

(** A run of observations; the hooks run one after the other. *)
Fixpoint observe_all (u : Usercorn M) (os : list (Z * Z * M)) : outcome (Usercorn M) :=
  match os with
  | [] => Returned u
  | o :: rest => obind (observe u o) (fun u' => observe_all u' rest)
  end.

(** ** The address-space builder *)

(** The loop "map merged segments" of [mapBinary]: it threads
    [loadBias] and stops at the first engine error. *)
Fixpoint map_merged (dynamic : bool) (merged : list Segment) (loadBias : Z) (m : M)
  : (Z * option error) * M :=
  match merged with
  | [] => ((loadBias, None), m)
  | seg :: rest =>
      let size := U64.sub (seg_End seg) (seg_Start seg) in
      let '((loadBias, err), m) :=
        if dynamic && (seg_Start seg =? 0) && (loadBias =? 0)
        then cpu_Mmap 0x1000000 size m
        else
          let prot := if seg_Prot seg =? 0 then PROT_ALL else seg_Prot seg in
          let '(err, m') :=
            cpu_MemMapProt (U64.add loadBias (seg_Start seg))
                           (U64.sub (seg_End seg) (seg_Start seg)) prot m in
          ((loadBias, err), m') in
      match err with
      | Some e => ((loadBias, Some e), m)
      | None => map_merged dynamic rest loadBias m
      end
  end.

(** The loop "write segment memory". *)
Fixpoint write_segments (segments : list SegmentData) (loadBias : Z) (m : M)
  : option error * M :=
  match segments with
  | [] => (None, m)
  | seg :: rest =>
      match sd_Data seg with
      | (_, Some e) => (Some e, m)
      | (data, None) =>
          match cpu_MemWrite (U64.add loadBias (sd_Addr seg)) data m with
          | (Some e, m') => (Some e, m')
          | (None, m') => write_segments rest loadBias m'
          end
      end
  end.

(** The results [(interpBase, entry, base, realEntry)] of [mapBinary]. *)
Record Mapped : Type := mkMapped {
  r_interpBase : Z;
  r_entry : Z;
  r_base : Z;
  r_realEntry : Z
}.

(** The zero values of the named results, returned with an error. *)
Definition Mapped_zero : Mapped := mkMapped 0 0 0 0.

(** [mapBinary]. The recursion (the interpreter is loaded by a call of
    the function on itself) is bounded by [depth]; [None] stands for a
    call deeper than [depth]. *)
Fixpoint mapBinary_rec (depth : nat) (l : Loader) (isInterp : bool)
    (u : Usercorn M) (h : Hst) : option ((Mapped * option error) * Usercorn M) :=
  match depth with
  | O => None
  | S depth' =>
      match l_Type l with
      | UNKNOWN => Some ((Mapped_zero, Some (Err "Unsupported file load type.")), u)
      | ty =>
          let dynamic := match ty with DYN => true | _ => false end in
          match l_Segments l with
          | (_, Some e) => Some ((Mapped_zero, Some e), u)
          | (segments, None) =>
              let merged := merge_segments segments in
              let loadBias := if isInterp then ForceInterpBase u else ForceBase u in
              match map_merged dynamic merged loadBias (mem u) with
              | ((_, Some e), m) => Some ((Mapped_zero, Some e), set_mem m u)
              | ((loadBias, None), m) =>
                  match write_segments segments loadBias m with
                  | (Some e, m) => Some ((Mapped_zero, Some e), set_mem m u)
                  | (None, m) =>
                      let u := set_mem m u in
                      let entry := U64.add loadBias (l_Entry l) in
                      let interp := l_Interp l in
                      if negb (String.eqb interp "") && negb isInterp then
                        match loader_LoadFileArch (PrefixPath u h interp true) (l_Arch l) h with
                        | (_, Some e) => Some ((mkMapped 0 entry 0 0, Some e), u)
                        | (bin, None) =>
                            if negb (String.eqb (l_Arch bin) (l_Arch l)) then
                              Some ((mkMapped 0 entry 0 0,
                                     Some (Err "Interpreter arch mismatch")), u)
                            else
                              let u := set_interpLoader (Some bin) u in
                              match mapBinary_rec depth' bin true u h with
                              | None => None
                              | Some ((r, err), u) =>
                                  Some ((mkMapped (r_base r) (r_realEntry r) loadBias entry,
                                         err), u)
                              end
                        end
                      else Some ((mkMapped 0 entry loadBias entry, None), u)
                  end
              end
          end
      end
  end.

(** The interpreter is never loaded with an interpreter of its own: two
    levels are all the recursion takes (lemma [mapBinary_rec_depth]). *)
Definition mapBinary (l : Loader) (isInterp : bool) (u : Usercorn M) (h : Hst)
  : option ((Mapped * option error) * Usercorn M) :=
  mapBinary_rec 2 l isInterp u h.

(** ** Syscall dispatch *)

(** The typed argument slots of a syscall signature. *)
Inductive ArgKind : Type := KFd | KLen | KOff | KBuf | KObuf | KPtr | KInt | KStr.

(** What a handler acts on: the emulator and the host. *)
Definition World : Type := Usercorn M * Hst.

(** A syscall of a kernel personality: its input signature [In] and its
    handler [Call]. *)
Record Sys : Type := mkSys {
  sys_Name : string;
  sys_In : list ArgKind;
  sys_Call : list Z -> World -> Z * World
}.

(** A kernel personality ([common.Kernel]), by its lookup method. *)
Record Kernel : Type := mkKernel {
  UsercornSyscall : string -> option Sys
}.

(** The loop over [u.kernels] of [Syscall] and the final panic. *)
Fixpoint Syscall_walk (kernels : list Kernel) (name : string)
    (getArgs : nat -> list Z * option error) (w : World)
  : outcome ((Z * option error) * World) :=
  match kernels with
  | [] => Panicked (KernelNotFound name)
  | k :: rest =>
      match UsercornSyscall k name with
      | Some sys =>
          match getArgs (length (sys_In sys)) with
          | (_, Some e) => Returned ((0, Some e), w)
          | (args, None) =>
              let '(u, h) := w in
              let u := if TraceSys u then eprint (EvSysTrace (sys_Name sys) args) u else u in
              let '(ret, (u, h)) := sys_Call sys args (u, h) in
              let u := if TraceSys u then eprint (EvSysTraceRet ret) u else u in
              Returned ((ret, None), (u, h))
          end
      | None => Syscall_walk rest name getArgs w
      end
  end.

Definition Syscall (kernels : list Kernel) (num : Z) (name : string)
    (getArgs : nat -> list Z * option error) (w : World)
  : outcome ((Z * option error) * World) :=
  if String.eqb name "" then Panicked (SyscallMissing num)
  else
    let '(u, h) := w in
    let u := if TraceSys u && (0 <? stacktraceLen u) then eprint EvSysIndent u else u in
    Syscall_walk kernels name getArgs (u, h).

End Emulator.

(** ** The POSIX kernel personality ([kernel/posix]) *)

Module posix.

Definition UINT64_MAX : Z := U64.modulus - 1.

(** The byte [\x00]. *)
Definition NUL : string := String (ascii_of_nat 0) EmptyString.

(** Modelled from the spec: [Errno] is defined outside the files embedded
    here; host errors are "mapped to the guest errno via [Errno(err)]
    returning an unsigned word (negative errno in two's-complement)"; no
    error is 0. An error that carries no errno has no conversion in the
    spec and reads as [UINT64_MAX], the placeholder of the sibling
    handlers. *)
Definition Errno (err : option error) : Z :=
  match err with
  | None => 0
  | Some (Errno_ code) => U64.wrap (- code)
  | Some (Err _) => UINT64_MAX
  end.

Section Kernel.

Context {M : Type} {cpu : CPU M} {Hst : Type} {host : Host Hst}.

Definition World : Type := Usercorn M * Hst.

(** Modelled from the spec: [Buf.Pack] is defined outside the files
    embedded here; on a byte slice it "writes the serialized form into
    the guest", that is the bytes themselves at the buffer's address. *)
Definition Buf_Pack (buf : Z) (data : list Byte.byte) (u : Usercorn M)
  : option error * Usercorn M :=
  let '(err, m) := cpu_MemWrite buf data (mem u) in (err, set_mem m u).

(** The slice expression [name[:hi]]. *)
Definition slice_to (name : string) (hi : Z) : outcome string :=
  let len := Z.of_nat (String.length name) in
  if hi <=? len then Returned (substring 0 (Z.to_nat hi) name)
  else Panicked (SliceBounds hi len).

Definition Close (fd : Z) (w : World) : Z * World :=
  let '(u, h) := w in
  if fd =? 2 then (0, (u, h))
  else
    let '(err, h) := syscall_Close fd h in
    (Errno err, (u, h)).

Definition Readlink (path : string) (buf : Z) (size : Z) (w : World)
  : outcome (Z * World) :=
  let '(u, h) := w in
  let '(name, err) :=
    if String.eqb path "/proc/self/exe" && String.eqb (os u) "linux"
    then (exe u, None)
    else os_Readlink path h in
  match err with
  | Some _ => Returned (UINT64_MAX, (u, h))
  | None =>
      obind (if I64.sub (U64.to_int64 size) 1 <? Z.of_nat (String.length name)
             then slice_to name (U64.sub size 1)
             else Returned name) (fun name =>
      match Buf_Pack buf (list_byte_of_string (name ++ NUL)) u with
      | (Some _, u) => Returned (UINT64_MAX, (u, h))
      | (None, u) => Returned (Z.of_nat (String.length name), (u, h))
      end)
  end.

(** The largest length [make([]byte, n)] allocates: a constant of the Go
    runtime for the host platform (the allocator's bound, 2^48 bytes on
    64-bit Linux), or less on a host that is short of memory. *)
Variable maxAlloc : Z.

(** [make([]byte, n)] for a [uint64] length: the runtime panics
    ("makeslice: len out of range") when [n] does not fit an [int] or is
    beyond what it allocates; otherwise the slice has [n] bytes. The
    result is the length of the slice; its bytes are only read after
    [Read] has filled them. *)
Definition make_bytes (n : Z) : outcome Z :=
  if (n <? 2 ^ 63) && (n <=? maxAlloc) then Returned n else Panicked (MakeSliceLen n).

Definition Mmap (addrHint size prot flags fd off : Z) (w : World) : outcome (Z * World) :=
  let '(u, h) := w in
  let '((addr, _), m) := cpu_Mmap addrHint size (mem u) in
  let u := set_mem m u in
  if 0 <? fd then
    let '((fd2, _), h) := syscall_Dup fd h in
    let h := file_Seek fd2 off h in
    obind (make_bytes size) (fun tmp =>
    let '((data, _), h) := file_Read fd2 tmp h in
    let '(_, m) := cpu_MemWrite addr data (mem u) in
    let u := set_mem m u in
    let '(_, h) := syscall_Close fd2 h in
    Returned (addr, (u, h)))
  else Returned (addr, (u, h)).

Definition Mmap2 (addrHint size prot flags fd off : Z) (w : World) : outcome (Z * World) :=
  Mmap addrHint size prot flags fd off w.

Definition Munmap (addr size : Z) (w : World) : Z * World := (0, w).

Definition Mprotect (w : World) : Z * World := (0, w).

Definition Brk (addr : Z) (w : World) : Z * World :=
  let '(u, h) := w in
  let '((ret, _), u) := Brk addr u in
  (ret, (u, h)).

End Kernel.

End posix.

(** ** A reference engine and a reference host

    One implementation of each interface, small enough to run inside the
    logic. The theorems below hold for every engine and host; this pair
    only provides concrete runs. *)

Module Sim.

(** Mapped regions, memory bytes and the register file. *)
Record SimMem : Type := mkSimMem {
  sm_maps : list Segment;
  sm_bytes : gmap Z Byte.byte;
  sm_regs : list Z
}.

Definition page_aligned (x : Z) : bool := x mod UC_MEM_ALIGN =? 0.

Definition mapped (m : SimMem) (x : Z) : bool :=
  existsb (fun r => (seg_Start r <=? x) && (x <? seg_End r)) (sm_maps m).

Definition prot_at (m : SimMem) (x : Z) : option Z :=
  match List.filter (fun r => (seg_Start r <=? x) && (x <? seg_End r)) (sm_maps m) with
  | r :: _ => Some (seg_Prot r)
  | [] => None
  end.

(** Maps [[addr, addr+size)] with exactly [prot]; the address and size
    must be page-aligned and the engine rejects overlapping mappings. As
    the engine behind the facade does, it also rejects an empty range and
    a range that does not end inside the address space. *)
Definition MemMapProt (addr size prot : Z) (m : SimMem) : option error * SimMem :=
  let r := mkSegment addr (addr + size) prot in
  if (size <=? 0) || (U64.modulus <=? addr + size) then (Some (Err "range"), m)
  else if negb (page_aligned addr && page_aligned size) then (Some (Err "unaligned"), m)
  else if existsb (intersects r) (sm_maps m) then (Some (Err "overlap"), m)
  else (None, mkSimMem (sm_maps m ++ [r]) (sm_bytes m) (sm_regs m)).

(** Reserves a page-aligned region of at least [size] bytes at or above
    the hint, past every mapping, with the default protection R|W. *)
Definition Mmap (hint size : Z) (m : SimMem) : (Z * option error) * SimMem :=
  let '(lo, sz) := align hint size true in
  let addr := fold_left (fun a r => Z.max a (seg_End r)) (sm_maps m) lo in
  match MemMapProt addr sz (Z.lor PROT_READ PROT_WRITE) m with
  | (Some e, m') => ((0, Some e), m')
  | (None, m') => ((addr, None), m')
  end.

Fixpoint store (addr : Z) (data : list Byte.byte) (bytes : gmap Z Byte.byte)
  : gmap Z Byte.byte :=
  match data with
  | [] => bytes
  | b :: rest => store (addr + 1) rest (<[addr := b]> bytes)
  end.

Definition MemWrite (addr : Z) (data : list Byte.byte) (m : SimMem)
  : option error * SimMem :=
  if forallb (fun i => mapped m (addr + Z.of_nat i)) (seq 0 (length data))
  then (None, mkSimMem (sm_maps m) (store addr data (sm_bytes m)) (sm_regs m))
  else (Some (Err "unmapped"), m).

Definition MemRead (addr : Z) (n : nat) (m : SimMem) : list (option Byte.byte) :=
  map (fun i => sm_bytes m !! (addr + Z.of_nat i)) (seq 0 n).

#[global] Instance cpu : CPU SimMem := {|
  cpu_Mmap := Mmap;
  cpu_MemMapProt := MemMapProt;
  cpu_MemWrite := MemWrite;
  cpu_RegDump := sm_regs
|}.

(** Existing paths, loadable binaries, symbolic links and the open
    descriptors with their content and offset. *)
Record SimHost : Type := mkSimHost {
  sh_paths : list string;
  sh_binaries : list (string * Loader);
  sh_links : list (string * string);
  sh_fds : gmap Z (list Byte.byte * Z)
}.

Definition EBADF : Z := 9.
Definition EINVAL : Z := 22.

(** The lexical cleaning a joined absolute path needs: repeated
    separators collapse. *)
Fixpoint Clean (p : string) : string :=
  match p with
  | String c rest =>
      match rest with
      | String c' _ =>
          if Ascii.eqb c "/" && Ascii.eqb c' "/" then Clean rest else String c (Clean rest)
      | EmptyString => String c EmptyString
      end
  | EmptyString => EmptyString
  end.

Definition lookup_assoc {A : Type} (k : string) (l : list (string * A)) : option A :=
  match List.filter (fun kv => String.eqb (fst kv) k) l with
  | kv :: _ => Some (snd kv)
  | [] => None
  end.

(** The path [p] names an entry of the file system. *)
Definition exists_on (p : string) (h : SimHost) : bool :=
  existsb (String.eqb p) (sh_paths h).

(** The path [p] lies below [d]: it continues [d] with a separator. *)
Definition below (d p : string) : bool := String.prefix (d ++ "/") p.

(** [stat(2)]: no error for an existing path; ENOTDIR when the path runs
    through a regular file (a binary of the host), ENOENT for any other
    missing path. *)
Definition Stat (p : string) (h : SimHost) : option error :=
  if exists_on p h then None
  else if existsb (fun b => below (fst b) p) (sh_binaries h) then Some (Errno_ ENOTDIR)
  else Some (Errno_ ENOENT).

Definition Readlink (p : string) (h : SimHost) : string * option error :=
  match lookup_assoc p (sh_links h) with
  | Some target => (target, None)
  | None => (EmptyString, Some (Errno_ EINVAL))
  end.

Definition Loader_zero : Loader :=
  mkLoader EmptyString EmptyString UNKNOWN 0 ([], None) EmptyString ([], None).

Definition LoadFileArch (p arch : string) (h : SimHost) : Loader * option error :=
  match lookup_assoc p (sh_binaries h) with
  | Some l => (l, None)
  | None => (Loader_zero, Some (Errno_ ENOENT))
  end.

Definition Close (fd : Z) (h : SimHost) : option error * SimHost :=
  match sh_fds h !! fd with
  | Some _ => (None, mkSimHost (sh_paths h) (sh_binaries h) (sh_links h) (delete fd (sh_fds h)))
  | None => (Some (Errno_ EBADF), h)
  end.

Definition Dup (fd : Z) (h : SimHost) : (Z * option error) * SimHost :=
  match sh_fds h !! fd with
  | Some f =>
      let fd2 := 1 + fold_left Z.max (map fst (map_to_list (sh_fds h))) 2 in
      ((fd2, None),
       mkSimHost (sh_paths h) (sh_binaries h) (sh_links h) (<[fd2 := f]> (sh_fds h)))
  | None => ((-1, Some (Errno_ EBADF)), h)
  end.

Definition Seek (fd off : Z) (h : SimHost) : SimHost :=
  match sh_fds h !! fd with
  | Some (content, _) =>
      mkSimHost (sh_paths h) (sh_binaries h) (sh_links h) (<[fd := (content, off)]> (sh_fds h))
  | None => h
  end.

Definition Read (fd size : Z) (h : SimHost) : (list Byte.byte * option error) * SimHost :=
  match sh_fds h !! fd with
  | Some (content, pos) =>
      let data := take (Z.to_nat size) (drop (Z.to_nat pos) content) in
      ((data, None),
       mkSimHost (sh_paths h) (sh_binaries h) (sh_links h)
                 (<[fd := (content, pos + Z.of_nat (length data))]> (sh_fds h)))
  | None => (([], Some (Errno_ EBADF)), h)
  end.

#[global] Instance host : Host SimHost := {|
  filepath_Clean := Clean;
  os_Stat := Stat;
  os_Readlink := Readlink;
  loader_LoadFileArch := LoadFileArch;
  syscall_Close := Close;
  syscall_Dup := Dup;
  file_Seek := Seek;
  file_Read := Read
|}.

End Sim.

(** The signed distance [dist] of the closure [symbolicate] and the test
    that guards its [append], named for the proofs. *)
Definition dist64 (addr : Z) (s : Symbol) : Z :=
  U64.to_int64 (U64.sub addr (sym_Start s)).

Definition eligible (addr : Z) (s : Symbol) : bool :=
  negb (sym_Start s =? 0)
  && ((0 <=? dist64 addr s)
      && ((U64.add (sym_Start s) (U64.of_int64 (dist64 addr s)) <=? sym_End s)
          || (sym_End s =? 0))
      && negb (String.eqb (sym_Name s) "")).

(** What the loop has computed once the symbols [seen] are visited. *)
Definition visited (addr : Z) (seen : list Symbol) (acc : gmap Z (list Symbol) * Z) : Prop :=
  let cands := List.filter (eligible addr) seen in
  (forall k, acc.1 !!! k = List.filter (fun s => dist64 addr s =? k) cands)
  /\ (acc.1 = ∅ <-> cands = [])
  /\ (cands = [] -> acc.2 = -1)
  /\ (cands <> [] -> In acc.2 (map (dist64 addr) cands)
                    /\ forall c, In c cands -> acc.2 <= dist64 addr c).

(** ** Symbolication, as the specification words it *)

Module SymSpec.

(** The first element of least key. *)
Fixpoint first_min {A : Type} (key : A -> Z) (l : list A) : option A :=
  match l with
  | [] => None
  | a :: rest =>
      match first_min key rest with
      | Some b => if key a <=? key b then Some a else Some b
      | None => Some a
      end
  end.

(** A symbol covers the offset: its Start is not 0, Start ≤ offset ≤ End
    (or End == 0, open-ended), and its Name is not empty. *)
Definition candidate (offset : Z) (s : Symbol) : bool :=
  negb (sym_Start s =? 0)
  && negb (String.eqb (sym_Name s) "")
  && (sym_Start s <=? offset)
  && ((offset <=? sym_End s) || (sym_End s =? 0)).

(** The candidate "minimizing offset - Start". *)
Definition nearest (offset : Z) (symbols : list Symbol) : option Symbol :=
  first_min (fun s => offset - sym_Start s) (List.filter (candidate offset) symbols).

(** "Of the two candidates pick the one with strictly smaller distance
    (ties: the main image)". *)
Definition pick (main interp : option (Symbol * Z)) : option (Symbol * Z) :=
  match main, interp with
  | Some (s, ds), Some (i, di) => if di <? ds then Some (i, di) else Some (s, ds)
  | Some m, None => Some m
  | None, other => other
  end.

(** "Return name when distance == 0, else name+0xN". *)
Definition render (name : string) (distance : Z) : string :=
  if distance =? 0 then name else (name ++ "+0x" ++ fmt_hex distance)%string.

Definition Symbolicate {M : Type} (demangle : string -> string) (u : Usercorn M) (pc : Z)
  : string :=
  let with_distance offset s := (s, offset - sym_Start s) in
  let main :=
    with_distance (pc - base u) <$> nearest (pc - base u) (fst (l_Symbols (loader u))) in
  let interp :=
    match interpLoader u with
    | Some il =>
        with_distance (pc - interpBase u)
          <$> nearest (pc - interpBase u) (fst (l_Symbols il))
    | None => None
    end in
  match pick main interp with
  | Some (s, d) =>
      render (if Demangle u then demangle (sym_Name s) else sym_Name s) d
  | None => ""
  end.

(** Addresses for which differences fit a signed 64-bit integer. *)
Definition small (x : Z) : Prop := 0 <= x < 2 ^ 62.

Definition small_symbols (symbols : list Symbol) : Prop :=
  Forall (fun s => small (sym_Start s)) symbols.

Definition in_range {M : Type} (u : Usercorn M) (pc : Z) : Prop :=
  small pc /\ small (base u) /\ small (interpBase u)
  /\ small_symbols (fst (l_Symbols (loader u)))
  /\ match interpLoader u with
     | Some il => small_symbols (fst (l_Symbols il))
     | None => True
     end.

End SymSpec.

(** ** The code hook, for the proofs *)

(** The registers read as the snapshot holds them: [Changes()] would
    report no change. *)
Definition regs_unchanged (snapshot regs : list Z) : Prop :=
  Changes_Count (imap (fun i v => (nth i snapshot 0, v)) regs) = 0.

(** The fields a call of the code hook may write. *)
Definition hooked {M : Type} (u : Usercorn M) (m : M) (snapshot : list Z) (count : Z)
    (printed : list Event) (stop : bool) (addr : Z) : Usercorn M :=
  set_lastCode addr
    (set_stopped stop
       (set_stderr (stderr u ++ printed)
          (set_deadlock count (set_status snapshot (set_mem m u))))).

(** The symbol as the fatal message shows it. *)
Definition fatal_sym (sym : string) : string :=
  if negb (String.eqb sym "") then (" (" ++ sym ++ ")")%string else sym.

(** ** Runs of [Brk] *)

Section BrkRuns.

Context {M : Type} {cpu : CPU M}.

(** The values of [brk] along a sequence of [Brk] calls, the initial
    value first. *)
Fixpoint Brk_trace (u : Usercorn M) (addrs : list Z) : list Z :=
  match addrs with
  | [] => [brk u]
  | a :: rest => brk u :: Brk_trace (snd (Brk a u)) rest
  end.

(** Every call asks for 0 or for an address at or above the value of
    [brk] at that call. *)
Fixpoint Brk_growing (u : Usercorn M) (addrs : list Z) : Prop :=
  match addrs with
  | [] => True
  | a :: rest => (a = 0 \/ brk u <= a) /\ Brk_growing (snd (Brk a u)) rest
  end.

(** The engine refuses a range that runs past the end of the address
    space. *)
Definition refuses_wrapping : Prop :=
  forall addr size prot (m : M),
    U64.modulus < addr + size -> fst (cpu_MemMapProt addr size prot m) <> None.

End BrkRuns.

Arguments World M Hst : clear implicits.
Arguments Sys M Hst : clear implicits.
Arguments Kernel M Hst : clear implicits.

(** ** Runs of [Syscall] *)

Section SyscallRuns.

Context {M : Type} {Hst : Type}.

(** The world the handler of [sys] starts in: the trace lines of
    [Syscall] come before the call. *)
Definition Syscall_enter (sys : Sys M Hst) (args : list Z) (w : World M Hst) : World M Hst :=
  let '(u, h) := w in
  let u := if TraceSys u && (0 <? stacktraceLen u) then eprint EvSysIndent u else u in
  let u := if TraceSys u then eprint (EvSysTrace (sys_Name sys) args) u else u in
  (u, h).

(** The world [Syscall] hands back: the handler's, with the return
    trace line. *)
Definition Syscall_leave (ret : Z) (w : World M Hst) : World M Hst :=
  let '(u, h) := w in
  ((if TraceSys u then eprint (EvSysTraceRet ret) u else u), h).

(** No kernel of the list knows the name. *)
Definition unserviced (kernels : list (Kernel M Hst)) (name : string) : Prop :=
  Forall (fun k => UsercornSyscall k name = None) kernels.

End SyscallRuns.

(** ** Concrete inputs *)

Module Ex.

Definition raw (addr size prot : Z) : SegmentData := mkSegmentData addr size prot ([], None).

(** [[0x1000,0x3000) R] and [[0x2000,0x4000) W]. *)
Definition overlapping : list SegmentData :=
  [raw 0x1000 0x2000 PROT_READ; raw 0x2000 0x2000 PROT_WRITE].

(** Two separate pages and a third segment that spans both. *)
Definition bridging : list SegmentData :=
  [raw 0x1000 0x1000 PROT_READ; raw 0x3000 0x1000 PROT_READ; raw 0x1000 0x3000 PROT_WRITE].

(** The symbol table of the specification's symbolication scenario. *)
Definition fg : list Symbol := [mkSymbol "f" 100 120; mkSymbol "g" 200 0].

Definition binary (symbols : list Symbol) : Loader :=
  mkLoader "x86_64" "linux" EXEC 0x1000 ([], None) "" (symbols, None).

Definition machine : Sim.SimMem := Sim.mkSimMem [] ∅ [0; 0].

(** An emulator over the reference engine: no interpreter, every trace
    option off. *)
Definition emulator (l : Loader) (base : Z) : Usercorn Sim.SimMem :=
  {| mem := machine; os := "linux"; exe := "/tmp/hello"; loader := l;
     interpLoader := None; base := base; interpBase := 0; brk := 0;
     TraceSys := false; TraceExec := false; TraceReg := false;
     traceMatching := true; ForceBase := 0; ForceInterpBase := 0;
     Demangle := false; LoadPrefix := ""; status := []; stacktraceLen := 0;
     blockloop := None; lastCode := 0; deadlock := 0; stderr := [];
     stopped := false |}.

Definition machine_with (regs : list Z) : Sim.SimMem := Sim.mkSimMem [] ∅ regs.

(** An emulator that traces instructions, with or without register
    tracing; the register snapshot was never taken. *)
Definition tracing (regs : bool) : Usercorn Sim.SimMem :=
  {| mem := machine; os := "linux"; exe := "/tmp/hello"; loader := binary fg;
     interpLoader := None; base := 0x400000; interpBase := 0; brk := 0;
     TraceSys := false; TraceExec := true; TraceReg := regs;
     traceMatching := true; ForceBase := 0; ForceInterpBase := 0;
     Demangle := false; LoadPrefix := ""; status := []; stacktraceLen := 0;
     blockloop := None; lastCode := 0; deadlock := 0; stderr := [];
     stopped := false |}.

(** The engine calls the code hook at [g]; the stack pointer was set
    before the run. *)
Definition at_g : Z * Z * Sim.SimMem := (0x4000c8, 2, machine_with [0x7fff0000; 0]).

(** An emulator whose break is at [0x2000]. *)
Definition heap : Usercorn Sim.SimMem := set_brk 0x2000 (emulator (binary fg) 0x400000).

(** A dynamic linker, and a static-position binary that names it. *)
Definition ld_so : Loader :=
  mkLoader "x86_64" "linux" DYN 0x40
           ([raw 0 0x2000 (Z.lor PROT_READ PROT_EXEC)], None) "" ([], None).

Definition hello : Loader :=
  mkLoader "x86_64" "linux" EXEC 0x400100
           ([raw 0x400000 0x1000 (Z.lor PROT_READ PROT_EXEC)], None) "/lib/ld.so" (fg, None).

(** A host with the dynamic linker installed, the binary's path and the
    standard descriptors open. *)
Definition linux_host : Sim.SimHost :=
  Sim.mkSimHost ["/tmp/hello"; "/lib/ld.so"] [("/lib/ld.so", ld_so)] []
                {[0 := ([], 0); 1 := ([], 0); 2 := ([], 0)]}.

(** An emulator that loads through the prefix [/root], on a host that
    holds [/root/lib/x.so] only. *)
Definition rooted : Usercorn Sim.SimMem :=
  {| mem := machine; os := "linux"; exe := "/tmp/hello"; loader := hello;
     interpLoader := None; base := 0; interpBase := 0; brk := 0;
     TraceSys := false; TraceExec := false; TraceReg := false;
     traceMatching := true; ForceBase := 0; ForceInterpBase := 0;
     Demangle := false; LoadPrefix := "/root"; status := []; stacktraceLen := 0;
     blockloop := None; lastCode := 0; deadlock := 0; stderr := [];
     stopped := false |}.

Definition root_host : Sim.SimHost := Sim.mkSimHost ["/root/lib/x.so"] [] [] ∅.

(** A host on which [/root/lib] is a regular file, a binary: no path
    lies below it. *)
Definition file_root_host : Sim.SimHost :=
  Sim.mkSimHost ["/root"; "/root/lib"] [("/root/lib", ld_so)] [] ∅.

(** Two personalities that both implement [open], with different
    results, and the argument registers of a call. *)
Definition open_returning (fd : Z) : Sys Sim.SimMem Sim.SimHost :=
  mkSys "open" [KStr; KInt; KInt] (fun _ w => (fd, w)).

Definition personality (fd : Z) : Kernel Sim.SimMem Sim.SimHost :=
  mkKernel (fun name => if String.eqb name "open" then Some (open_returning fd) else None).

Definition A : Kernel Sim.SimMem Sim.SimHost := personality 3.
Definition B : Kernel Sim.SimMem Sim.SimHost := personality 4.

Definition registers (n : nat) : list Z * option error := (take n [0x1000; 0; 0; 0; 0; 0], None).

(** An emulator whose guest has one read-write page at [0x10000]. *)
Definition paged : Sim.SimMem :=
  Sim.mkSimMem [mkSegment 0x10000 0x11000 (Z.lor PROT_READ PROT_WRITE)] ∅ [0; 0].

Definition guest : Usercorn Sim.SimMem := set_mem paged (emulator hello 0).

(** The same guest, its break at the start of the mapped page. *)
Definition full_heap : Usercorn Sim.SimMem := set_brk 0x10000 guest.

(** A host with a four-byte file open as descriptor 5. *)
Definition file_host : Sim.SimHost :=
  Sim.mkSimHost [] [] []
    {[0 := ([], 0); 1 := ([], 0); 2 := ([], 0);
      5 := (list_byte_of_string "ELF!", 0)]}.

End Ex.


(** * Properties *)

(** ** Machine arithmetic *)

Lemma wrap_range x : 0 <= U64.wrap x < U64.modulus.
Proof. unfold U64.wrap, U64.modulus. apply Z.mod_pos_bound. lia. Qed.

Lemma wrap_small x : 0 <= x < U64.modulus -> U64.wrap x = x.
Proof. intros Hx. unfold U64.wrap. apply Z.mod_small. exact Hx. Qed.

Lemma wrap_sub_l a b : U64.wrap (U64.wrap a - b) = U64.wrap (a - b).
Proof. unfold U64.wrap. apply Zminus_mod_idemp_l. Qed.

Lemma wrap_add_r a b : U64.wrap (a + U64.wrap b) = U64.wrap (a + b).
Proof. unfold U64.wrap. apply Zplus_mod_idemp_r. Qed.

Lemma to_int64_range x :
  0 <= x < U64.modulus -> - 2 ^ 63 <= U64.to_int64 x < 2 ^ 63.
Proof.
  unfold U64.to_int64, U64.modulus. intros Hx.
  destruct (Z.ltb_spec x (2 ^ 63)); lia.
Qed.

Lemma to_int64_wrap x : - 2 ^ 63 <= x < 2 ^ 63 -> U64.to_int64 (U64.wrap x) = x.
Proof.
  intros Hx. unfold U64.to_int64, U64.wrap, U64.modulus.
  destruct (Z.neg_nonneg_cases x) as [Hneg | Hpos].
  - replace (x mod 2 ^ 64) with (x + 2 ^ 64).
    + destruct (Z.ltb_spec (x + 2 ^ 64) (2 ^ 63)); lia.
    + apply Z.mod_unique with (q := -1); lia.
  - rewrite Z.mod_small by lia.
    destruct (Z.ltb_spec x (2 ^ 63)); lia.
Qed.

Lemma dist64_range addr s : - 2 ^ 63 <= dist64 addr s < 2 ^ 63.
Proof. unfold dist64, U64.sub. apply to_int64_range, wrap_range. Qed.

Lemma of_int64_nonneg addr s : 0 <= dist64 addr s -> U64.of_int64 (dist64 addr s) = dist64 addr s.
Proof.
  intros Hd. unfold U64.of_int64. apply wrap_small.
  pose proof (dist64_range addr s). unfold U64.modulus. lia.
Qed.

(** ** Segment merging *)

(** *** Page alignment *)

Lemma land_page_mask (a : Z) :
  0 <= a < U64.modulus -> Z.land a (U64.not (UC_MEM_ALIGN - 1)) = page_down a.
Proof.
  intros Ha.
  change (U64.not (UC_MEM_ALIGN - 1)) with (Z.ldiff (Z.ones 64) (Z.ones 12)).
  assert (Hl : Z.land a (Z.ldiff (Z.ones 64) (Z.ones 12))
               = Z.ldiff (Z.land a (Z.ones 64)) (Z.ones 12)).
  { apply Z.bits_inj'. intros n Hn.
    rewrite Z.land_spec, !Z.ldiff_spec, Z.land_spec. apply andb_assoc. }
  rewrite Hl, Z.land_ones by lia.
  change (2 ^ 64) with U64.modulus. rewrite Z.mod_small by exact Ha.
  rewrite Z.ldiff_ones_r by lia. rewrite Z.shiftr_div_pow2, Z.shiftl_mul_pow2 by lia.
  unfold page_down. change (2 ^ 12) with UC_MEM_ALIGN. lia.
Qed.

Lemma page_down_le (x : Z) : page_down x <= x < page_down x + UC_MEM_ALIGN.
Proof.
  unfold page_down, UC_MEM_ALIGN.
  pose proof (Z.mul_div_le x 4096 ltac:(lia)).
  pose proof (Z.mul_succ_div_gt x 4096 ltac:(lia)). lia.
Qed.

Lemma page_down_nonneg (x : Z) : 0 <= x -> 0 <= page_down x.
Proof.
  intros Hx. unfold page_down, UC_MEM_ALIGN.
  pose proof (Z.div_pos x 4096 Hx ltac:(lia)). lia.
Qed.

Lemma page_down_mono (x y : Z) : x <= y -> page_down x <= page_down y.
Proof.
  intros Hxy. unfold page_down, UC_MEM_ALIGN.
  pose proof (Z.div_le_mono x y 4096 ltac:(lia) Hxy). lia.
Qed.

(** Without wrap-around the span of a raw segment is the segment with its
    start rounded down and its end rounded up to a page. *)
Lemma span_of_no_wrap (seg : SegmentData) :
  no_wrap seg ->
  span_of seg
  = mkSegment (page_down (sd_Addr seg)) (page_up (sd_Addr seg + sd_Size seg)) (sd_Prot seg)
  /\ span_wf (span_of seg)
  /\ forall x, sd_Addr seg <= x < sd_Addr seg + sd_Size seg -> within (span_of seg) x.
Proof.
  intros (Haddr & Hsize & Hend).
  assert (Hspan : span_of seg
    = mkSegment (page_down (sd_Addr seg)) (page_up (sd_Addr seg + sd_Size seg)) (sd_Prot seg)).
  { unfold span_of, align, page_up.
    assert (Hm : U64.modulus = 2 ^ 64) by reflexivity.
    assert (Ha : UC_MEM_ALIGN = 4096) by reflexivity.
    unfold U64.add at 2 3. rewrite (wrap_small (sd_Addr seg + sd_Size seg)) by lia.
    rewrite (wrap_small (sd_Addr seg + sd_Size seg + (UC_MEM_ALIGN - 1))) by lia.
    rewrite !land_page_mask by lia.
    pose proof (page_down_le (sd_Addr seg)).
    pose proof (page_down_nonneg (sd_Addr seg) Haddr).
    pose proof (page_down_le (sd_Addr seg + sd_Size seg + (UC_MEM_ALIGN - 1))).
    pose proof (page_down_mono (sd_Addr seg) (sd_Addr seg + sd_Size seg + (UC_MEM_ALIGN - 1))
                  ltac:(lia)).
    unfold U64.sub, U64.add.
    rewrite (wrap_small (page_down (sd_Addr seg + sd_Size seg + (UC_MEM_ALIGN - 1))
                         - page_down (sd_Addr seg))) by lia.
    rewrite wrap_small by lia. f_equal. lia. }
  split; [exact Hspan |].
  pose proof (page_down_le (sd_Addr seg)).
  pose proof (page_down_le (sd_Addr seg + sd_Size seg + (UC_MEM_ALIGN - 1))).
  pose proof (page_down_mono (sd_Addr seg) (sd_Addr seg + sd_Size seg + (UC_MEM_ALIGN - 1))
                ltac:(unfold UC_MEM_ALIGN; lia)).
  rewrite Hspan. unfold span_wf, within, page_up. cbn [seg_Start seg_End].
  split; [lia |]. intros x Hx. unfold UC_MEM_ALIGN in *. lia.
Qed.

(** *** One step of the merge loop *)

Lemma Overlaps_true (s o : Segment) :
  Overlaps s o = true
  <-> (seg_Start o <= seg_Start s < seg_End o) \/ (seg_Start s <= seg_Start o < seg_End s).
Proof.
  unfold Overlaps.
  destruct (Z.leb_spec (seg_Start o) (seg_Start s)), (Z.ltb_spec (seg_Start s) (seg_End o)),
    (Z.leb_spec (seg_Start s) (seg_Start o)), (Z.ltb_spec (seg_Start o) (seg_End s));
    cbn; split; intros; try discriminate; try reflexivity; lia.
Qed.

Lemma Overlaps_false (s o : Segment) :
  Overlaps s o = false
  <-> ~ (seg_Start o <= seg_Start s < seg_End o) /\ ~ (seg_Start s <= seg_Start o < seg_End s).
Proof.
  destruct (Overlaps s o) eqn:Ho.
  - apply Overlaps_true in Ho. split; [discriminate | tauto].
  - split; [intros _ | reflexivity].
    split; intros Hc; assert (Overlaps s o = true) by (apply Overlaps_true; tauto); congruence.
Qed.

Lemma intersects_false (a b : Segment) :
  intersects a b = false <-> Z.min (seg_End a) (seg_End b) <= Z.max (seg_Start a) (seg_Start b).
Proof. unfold intersects. destruct (Z.ltb_spec (Z.max (seg_Start a) (seg_Start b)) (Z.min (seg_End a) (seg_End b))); split; intros; try discriminate; try reflexivity; lia. Qed.

Lemma Merge_fields (s o : Segment) :
  seg_Start (Merge s o) = Z.min (seg_Start s) (seg_Start o)
  /\ seg_End (Merge s o) = Z.max (seg_End s) (seg_End o)
  /\ seg_Prot (Merge s o) = Z.lor (seg_Prot s) (seg_Prot o).
Proof.
  unfold Merge. cbn.
  destruct (Z.ltb_spec (seg_Start o) (seg_Start s)), (Z.ltb_spec (seg_End s) (seg_End o));
    repeat split; lia.
Qed.

Lemma Merge_within (s o : Segment) (x : Z) :
  span_wf s -> span_wf o -> Overlaps s o = true ->
  within (Merge s o) x <-> within s x \/ within o x.
Proof.
  unfold span_wf, within. intros Hs Ho Hov. apply Overlaps_true in Hov.
  destruct (Merge_fields s o) as (-> & -> & _). lia.
Qed.

Lemma Merge_wf (s o : Segment) : span_wf s -> span_wf o -> span_wf (Merge s o).
Proof.
  unfold span_wf. intros Hs Ho. destruct (Merge_fields s o) as (-> & -> & _). lia.
Qed.

Lemma covers_cons (s : Segment) (l : list Segment) (x : Z) :
  covers (s :: l) x <-> within s x \/ covers l x.
Proof.
  unfold covers, within. split.
  - intros (t & [<- | Ht] & Hx); [left; exact Hx | right; exists t; tauto].
  - intros [Hx | (t & Ht & Hx)]; [exists s | exists t]; cbn; tauto.
Qed.

Lemma covers_app (l l' : list Segment) (x : Z) :
  covers (l ++ l') x <-> covers l x \/ covers l' x.
Proof.
  unfold covers. split.
  - intros (t & Ht & Hx). apply in_app_or in Ht as [Ht | Ht]; [left | right]; exists t; tauto.
  - intros [(t & Ht & Hx) | (t & Ht & Hx)]; exists t; (split; [apply in_or_app; tauto | exact Hx]).
Qed.

Lemma merge_into_covers (s : Segment) (l l' : list Segment) :
  merge_into s l = Some l' -> Forall span_wf l -> span_wf s ->
  Forall span_wf l' /\ forall x, covers l' x <-> covers l x \/ within s x.
Proof.
  revert l'. induction l as [| s2 rest IH]; intros l' Hm Hl Hs; [discriminate |].
  apply Forall_cons_1 in Hl as [Hs2 Hrest]. cbn [merge_into] in Hm.
  destruct (Overlaps s2 s) eqn:Hov.
  - injection Hm as <-. split; [constructor; [apply Merge_wf |]; assumption |].
    intros x. rewrite !covers_cons, Merge_within by assumption. tauto.
  - destruct (merge_into s rest) as [rest' |] eqn:Hr; [| discriminate].
    injection Hm as <-. destruct (IH rest' eq_refl Hrest Hs) as [Hwf Hcov].
    split; [constructor; assumption |].
    intros x. rewrite !covers_cons, Hcov. tauto.
Qed.

Lemma merge_span_covers (l : list Segment) (s : Segment) :
  Forall span_wf l -> span_wf s ->
  Forall span_wf (merge_span l s)
  /\ forall x, covers (merge_span l s) x <-> covers l x \/ within s x.
Proof.
  intros Hl Hs. unfold merge_span. destruct (merge_into s l) as [l' |] eqn:Hm.
  - eapply merge_into_covers; eassumption.
  - split; [apply Forall_app; split; [exact Hl | constructor; [exact Hs | constructor]] |].
    intros x. rewrite covers_app, covers_cons. unfold covers at 3. firstorder.
Qed.

(** The union of the spans is kept by the merge, whatever their order. *)
Lemma merge_spans_covers (spans : list Segment) :
  Forall span_wf spans ->
  Forall span_wf (merge_spans spans)
  /\ forall x, covers (merge_spans spans) x <-> covers spans x.
Proof.
  unfold merge_spans.
  assert (Hgen : forall acc, Forall span_wf acc -> Forall span_wf spans ->
            Forall span_wf (fold_left merge_span spans acc)
            /\ forall x, covers (fold_left merge_span spans acc) x
                         <-> covers acc x \/ covers spans x).
  { induction spans as [| s spans IH]; intros acc Hacc Hspans; cbn [fold_left].
    - split; [exact Hacc |]. intros x. unfold covers at 3. firstorder.
    - apply Forall_cons_1 in Hspans as [Hs Hspans].
      destruct (merge_span_covers acc s Hacc Hs) as [Hwf Hcov].
      destruct (IH (merge_span acc s) Hwf Hspans) as [Hwf' Hcov'].
      split; [exact Hwf' |]. intros x. rewrite Hcov', Hcov, covers_cons. tauto. }
  intros Hspans. destruct (Hgen [] ltac:(constructor) Hspans) as [Hwf Hcov].
  split; [exact Hwf |]. intros x. rewrite Hcov. unfold covers at 1. firstorder.
Qed.

(** *** Address-ordered input *)

Lemma ForallOrdPairs_snoc {A : Type} (R : A -> A -> Prop) (l : list A) (s : A) :
  ForallOrdPairs R l -> Forall (fun t => R t s) l -> ForallOrdPairs R (l ++ [s]).
Proof.
  induction 1 as [| a l Ha Hl IH]; intros Hs; cbn.
  - repeat constructor.
  - apply Forall_cons_1 in Hs as [Has Hs]. constructor; [| apply IH, Hs].
    apply Forall_app. split; [exact Ha | constructor; [exact Has | constructor]].
Qed.

Lemma pairwise_disjoint_apart (l : list Segment) :
  pairwise_disjoint l = true <-> ForallOrdPairs apart l.
Proof.
  induction l as [| a l IH]; cbn [pairwise_disjoint].
  - split; [constructor | reflexivity].
  - rewrite andb_true_iff, forallb_forall, IH. split.
    + intros [Ha Hl]. constructor; [| exact Hl].
      apply List.Forall_forall. intros b Hb. apply negb_true_iff, Ha, Hb.
    + intros Hp. inversion Hp as [| ? ? Ha Hl]; subst. split; [| exact Hl].
      intros b Hb. apply negb_true_iff. eapply (proj1 (List.Forall_forall _ _)) in Ha; eassumption.
Qed.

(** The segment [s] comes after the spans of [l] in address order, and
    [s2], another span that starts no later than [s] and is apart from
    every span of [l], does not overlap [s]: merging [s] into [l] keeps
    the spans non-empty, before [s], pairwise apart, and apart from
    [s2]. *)
Lemma merge_into_apart (s : Segment) (l l' : list Segment) :
  merge_into s l = Some l' ->
  span_nonempty s ->
  Forall span_nonempty l ->
  Forall (fun t => seg_Start t <= seg_Start s) l ->
  ForallOrdPairs apart l ->
  (Forall span_nonempty l'
   /\ Forall (fun t => seg_Start t <= seg_Start s) l'
   /\ ForallOrdPairs apart l')
  /\ forall s2, span_nonempty s2 -> seg_Start s2 <= seg_Start s -> Overlaps s2 s = false ->
                Forall (apart s2) l -> Forall (apart s2) l'.
Proof.
  revert l'. induction l as [| t rest IH]; intros l' Hm Hs Hne Hbefore Hap; [discriminate |].
  apply Forall_cons_1 in Hne as [Ht Hne]. apply Forall_cons_1 in Hbefore as [Hts Hbefore].
  inversion Hap as [| ? ? Htrest Hrest]; subst.
  cbn [merge_into] in Hm. destruct (Overlaps t s) eqn:Hov.
  - injection Hm as <-. apply Overlaps_true in Hov.
    unfold span_nonempty in *. destruct (Merge_fields t s) as (HS & HE & _).
    split; [split; [| split] |].
    + constructor; [unfold span_nonempty; lia | exact Hne].
    + constructor; [lia | exact Hbefore].
    + constructor; [| exact Hrest].
      apply List.Forall_forall. intros r Hr.
      eapply (proj1 (List.Forall_forall _ _)) in Htrest; [| exact Hr].
      eapply (proj1 (List.Forall_forall _ _)) in Hne; [| exact Hr].
      eapply (proj1 (List.Forall_forall _ _)) in Hbefore; [| exact Hr].
      cbn beta in *. unfold apart in *. apply intersects_false in Htrest.
      apply intersects_false. unfold span_nonempty in *. lia.
    + intros s2 Hs2 Hs2s Hnov Hs2l. apply Forall_cons_1 in Hs2l as [Hs2t Hs2rest].
      constructor; [| exact Hs2rest].
      apply Overlaps_false in Hnov. unfold apart in *. apply intersects_false in Hs2t.
      apply intersects_false. unfold span_nonempty in *. lia.
  - destruct (merge_into s rest) as [rest' |] eqn:Hr; [| discriminate].
    injection Hm as <-.
    destruct (IH rest' eq_refl Hs Hne Hbefore Hrest) as [(Hne' & Hbefore' & Hap') Hout].
    split; [split; [| split] |].
    + constructor; assumption.
    + constructor; assumption.
    + constructor; [| exact Hap']. apply Hout; assumption.
    + intros s2 Hs2 Hs2s Hnov Hs2l. apply Forall_cons_1 in Hs2l as [Hs2t Hs2rest].
      constructor; [exact Hs2t |]. apply Hout; assumption.
Qed.

Lemma merge_into_None (s : Segment) (l : list Segment) :
  merge_into s l = None <-> Forall (fun t => Overlaps t s = false) l.
Proof.
  induction l as [| t rest IH]; cbn [merge_into].
  - split; [constructor | reflexivity].
  - destruct (Overlaps t s) eqn:Hov.
    + split; [discriminate |]. intros Hf. apply Forall_cons_1 in Hf as [Hf _]. congruence.
    + destruct (merge_into s rest) as [rest' |].
      * split; [discriminate |]. intros Hf. apply Forall_cons_1 in Hf as [_ Hf].
        apply IH in Hf. discriminate.
      * split; [| reflexivity]. intros _. constructor; [exact Hov | apply IH; reflexivity].
Qed.

Lemma merge_span_apart (l : list Segment) (s : Segment) :
  span_nonempty s ->
  Forall span_nonempty l ->
  Forall (fun t => seg_Start t <= seg_Start s) l ->
  ForallOrdPairs apart l ->
  Forall span_nonempty (merge_span l s)
  /\ Forall (fun t => seg_Start t <= seg_Start s) (merge_span l s)
  /\ ForallOrdPairs apart (merge_span l s).
Proof.
  intros Hs Hne Hbefore Hap. unfold merge_span.
  destruct (merge_into s l) as [l' |] eqn:Hm.
  - eapply merge_into_apart; eassumption.
  - apply merge_into_None in Hm. split; [| split].
    + apply Forall_app. split; [exact Hne | constructor; [exact Hs | constructor]].
    + apply Forall_app. split; [exact Hbefore | constructor; [lia | constructor]].
    + apply ForallOrdPairs_snoc; [exact Hap |].
      apply List.Forall_forall. intros t Ht.
      eapply (proj1 (List.Forall_forall _ _)) in Hm; [| exact Ht].
      eapply (proj1 (List.Forall_forall _ _)) in Hne; [| exact Ht].
      eapply (proj1 (List.Forall_forall _ _)) in Hbefore; [| exact Ht].
      cbn beta in *. apply Overlaps_false in Hm. apply intersects_false.
      unfold span_nonempty in *. lia.
Qed.

(** On non-empty spans given in address order, the merge loop leaves
    spans that are pairwise disjoint. *)
Lemma merge_spans_sorted_disjoint (spans : list Segment) :
  by_start spans -> Forall span_nonempty spans ->
  Forall span_nonempty (merge_spans spans)
  /\ pairwise_disjoint (merge_spans spans) = true.
Proof.
  unfold merge_spans, by_start.
  assert (Hgen : forall acc,
            StronglySorted (fun a b => seg_Start a <= seg_Start b) spans ->
            Forall span_nonempty spans ->
            Forall span_nonempty acc ->
            Forall (fun t => Forall (fun s => seg_Start t <= seg_Start s) spans) acc ->
            ForallOrdPairs apart acc ->
            Forall span_nonempty (fold_left merge_span spans acc)
            /\ ForallOrdPairs apart (fold_left merge_span spans acc)).
  { induction spans as [| s spans IH]; intros acc Hsorted Hne Hacc Hbefore Hap;
      cbn [fold_left]; [split; assumption |].
    apply Forall_cons_1 in Hne as [Hs Hne].
    apply StronglySorted_inv in Hsorted as [Hsorted Hs_first].
    assert (Hbefore_s : Forall (fun t => seg_Start t <= seg_Start s) acc).
    { eapply Forall_impl; [exact Hbefore |]. intros t Ht.
      apply Forall_cons_1 in Ht as [Ht _]. exact Ht. }
    destruct (merge_span_apart acc s Hs Hacc Hbefore_s Hap) as (Hne' & Hbefore' & Hap').
    apply IH; try assumption.
    eapply Forall_impl; [exact Hbefore' |]. intros t Ht. cbn beta in *.
    eapply Forall_impl; [exact Hs_first |]. intros r Hr. cbn beta in *. lia. }
  intros Hsorted Hne.
  destruct (Hgen [] Hsorted Hne ltac:(constructor) ltac:(constructor) ltac:(constructor))
    as [Hne' Hap'].
  split; [exact Hne' | apply pairwise_disjoint_apart, Hap'].
Qed.

(** Non-empty spans that are pairwise disjoint are a fixed point of the
    merge loop. *)
Lemma merge_spans_fixed (spans : list Segment) :
  Forall span_nonempty spans -> pairwise_disjoint spans = true ->
  merge_spans spans = spans.
Proof.
  unfold merge_spans. intros Hne Hpd. apply pairwise_disjoint_apart in Hpd.
  assert (Hgen : forall acc,
            Forall span_nonempty (acc ++ spans) -> ForallOrdPairs apart (acc ++ spans) ->
            fold_left merge_span spans acc = acc ++ spans).
  { clear Hne Hpd. induction spans as [| s spans IH]; intros acc Hne Hap; cbn [fold_left].
    - rewrite app_nil_r. reflexivity.
    - replace (acc ++ s :: spans) with ((acc ++ [s]) ++ spans) in *
        by (rewrite <- app_assoc; reflexivity).
      rewrite <- IH by assumption. f_equal. unfold merge_span.
      assert (Hnone : merge_into s acc = None).
      { apply merge_into_None. apply List.Forall_forall. intros t Ht.
        apply Forall_app in Hne as [Hne _]. apply Forall_app in Hne as [Hacc Hs].
        apply Forall_cons_1 in Hs as [Hs _].
        eapply (proj1 (List.Forall_forall _ _)) in Hacc; [| exact Ht].
        assert (Hts : apart t s).
        { clear - Hap Ht. induction acc as [| a acc IHacc]; [destruct Ht |].
          cbn in Hap. inversion Hap as [| ? ? Ha Hrest]; subst.
          destruct Ht as [<- | Ht]; [| apply IHacc; assumption].
          eapply (proj1 (List.Forall_forall _ _)) in Ha; [exact Ha |].
          apply in_or_app. left. apply in_or_app. right. left. reflexivity. }
        apply Overlaps_false. apply intersects_false in Hts.
        unfold span_nonempty in *. lia. }
      rewrite Hnone. reflexivity. }
  apply (Hgen []); assumption.
Qed.

(** Together: on address-ordered non-empty spans the merge loop is
    idempotent. *)
Lemma merge_spans_sorted_idempotent (spans : list Segment) :
  by_start spans -> Forall span_nonempty spans ->
  merge_spans (merge_spans spans) = merge_spans spans.
Proof.
  intros Hsorted Hne. apply merge_spans_fixed; apply merge_spans_sorted_disjoint; assumption.
Qed.

(** *** Protection *)

Lemma land_lor_keep (a b p : Z) : Z.land a p = p -> Z.land (Z.lor a b) p = p.
Proof.
  intros Hp. apply Z.bits_inj'. intros n Hn.
  rewrite Z.land_spec, Z.lor_spec.
  assert (Hb : Z.testbit (Z.land a p) n = Z.testbit p n) by (rewrite Hp; reflexivity).
  rewrite Z.land_spec in Hb.
  destruct (Z.testbit a n), (Z.testbit b n), (Z.testbit p n); cbn in *; congruence.
Qed.

Lemma land_lor_self (a b : Z) : Z.land (Z.lor a b) b = b.
Proof.
  apply Z.bits_inj'. intros n Hn. rewrite Z.land_spec, Z.lor_spec.
  destruct (Z.testbit a n), (Z.testbit b n); reflexivity.
Qed.

Lemma grants_cons (t : Segment) (l : list Segment) (x p : Z) :
  grants (t :: l) x p <-> (within t x /\ Z.land (seg_Prot t) p = p) \/ grants l x p.
Proof.
  unfold grants. split.
  - intros (r & [<- | Hr] & Hx); [left; exact Hx | right; exists r; tauto].
  - intros [Hx | (r & Hr & Hx)]; [exists t | exists r]; cbn; tauto.
Qed.

Lemma Merge_grows (t s : Segment) (x : Z) :
  within t x \/ within s x -> within (Merge t s) x.
Proof.
  unfold within. destruct (Merge_fields t s) as (-> & -> & _). lia.
Qed.

Lemma merge_into_grants (s : Segment) (l l' : list Segment) :
  merge_into s l = Some l' ->
  (forall x p, grants l x p -> grants l' x p)
  /\ (forall x, within s x -> grants l' x (seg_Prot s)).
Proof.
  revert l'. induction l as [| t rest IH]; intros l' Hm; [discriminate |].
  cbn [merge_into] in Hm. destruct (Overlaps t s).
  - injection Hm as <-. destruct (Merge_fields t s) as (_ & _ & HP). split.
    + intros x p. rewrite !grants_cons. intros [[Hx Hp] | Hrest]; [left | right; exact Hrest].
      split; [apply Merge_grows; left; exact Hx |]. rewrite HP. apply land_lor_keep, Hp.
    + intros x Hx. apply grants_cons. left.
      split; [apply Merge_grows; right; exact Hx |]. rewrite HP. apply land_lor_self.
  - destruct (merge_into s rest) as [rest' |]; [| discriminate]. injection Hm as <-.
    destruct (IH rest' eq_refl) as [Hold Hnew]. split.
    + intros x p. rewrite !grants_cons. intros [Ht | Hrest]; [left; exact Ht | right].
      apply Hold, Hrest.
    + intros x Hx. apply grants_cons. right. apply Hnew, Hx.
Qed.

(** Every address of an input span lies, after the merge, in a span that
    grants all the protection bits of that input span. *)
Lemma merge_spans_grants (spans : list Segment) (s : Segment) (x : Z) :
  In s spans -> within s x -> grants (merge_spans spans) x (seg_Prot s).
Proof.
  unfold merge_spans.
  assert (Hstep : forall acc r,
            (forall y p, grants acc y p -> grants (merge_span acc r) y p)
            /\ (forall y, within r y -> grants (merge_span acc r) y (seg_Prot r))).
  { intros acc r. unfold merge_span. destruct (merge_into r acc) as [l' |] eqn:Hm.
    - eapply merge_into_grants; eassumption.
    - split.
      + intros y p (t & Ht & Hy). exists t. split; [apply in_or_app; left; exact Ht | exact Hy].
      + intros y Hy. exists r. split; [apply in_or_app; right; left; reflexivity |].
        split; [exact Hy | apply Z.land_diag]. }
  assert (Hkeep : forall l acc y p, grants acc y p -> grants (fold_left merge_span l acc) y p).
  { induction l as [| r l IH]; intros acc y p Hg; cbn [fold_left]; [exact Hg |].
    apply IH, Hstep, Hg. }
  generalize (@nil Segment). induction spans as [| r spans IH]; intros acc Hs Hx; [destruct Hs |].
  cbn [fold_left]. destruct Hs as [-> | Hs].
  - apply Hkeep, Hstep, Hx.
  - apply IH; assumption.
Qed.

(** *** Raw segments in address order *)

Lemma span_of_sorted (segments : list SegmentData) :
  Forall no_wrap segments ->
  Forall (fun seg => 0 < sd_Size seg) segments ->
  StronglySorted (fun a b => sd_Addr a <= sd_Addr b) segments ->
  by_start (map span_of segments) /\ Forall span_nonempty (map span_of segments).
Proof.
  unfold by_start. induction segments as [| seg segments IH]; intros Hnw Hpos Hsorted; cbn [map].
  - split; constructor.
  - apply Forall_cons_1 in Hnw as [Hseg Hnw]. apply Forall_cons_1 in Hpos as [Hsize Hpos].
    apply StronglySorted_inv in Hsorted as [Hsorted Hfirst].
    destruct (IH Hnw Hpos Hsorted) as [IHs IHn].
    destruct (span_of_no_wrap seg Hseg) as (Hspan & _ & _).
    split; constructor; try assumption.
    + apply List.Forall_forall. intros t Ht. apply in_map_iff in Ht as (seg' & <- & Hseg').
      eapply (proj1 (List.Forall_forall _ _)) in Hfirst; [| exact Hseg'].
      eapply (proj1 (List.Forall_forall _ _)) in Hnw; [| exact Hseg'].
      destruct (span_of_no_wrap seg' Hnw) as (Hspan' & _ & _).
      rewrite Hspan, Hspan'. cbn [seg_Start]. apply page_down_mono, Hfirst.
    + rewrite Hspan. unfold span_nonempty, page_up. cbn [seg_Start seg_End].
      pose proof (page_down_le (sd_Addr seg)).
      pose proof (page_down_le (sd_Addr seg + sd_Size seg + (UC_MEM_ALIGN - 1))).
      unfold UC_MEM_ALIGN in *. lia.
Qed.

(** For raw segments of positive size, listed in address order and away
    from the end of the address space, the merge step does what the
    specification says: its spans are pairwise disjoint, cover the
    addresses of the page-aligned segments and no other, and merging them
    again changes nothing. *)
Lemma merge_segments_sorted (segments : list SegmentData) :
  Forall no_wrap segments ->
  Forall (fun seg => 0 < sd_Size seg) segments ->
  StronglySorted (fun a b => sd_Addr a <= sd_Addr b) segments ->
  pairwise_disjoint (merge_segments segments) = true
  /\ merge_spans (merge_segments segments) = merge_segments segments
  /\ forall x, covers (merge_segments segments) x <-> covers (map span_of segments) x.
Proof.
  intros Hnw Hpos Hsorted. unfold merge_segments.
  destruct (span_of_sorted segments Hnw Hpos Hsorted) as [Hs Hne].
  split; [apply merge_spans_sorted_disjoint; assumption |].
  split; [apply merge_spans_sorted_idempotent; assumption |].
  apply merge_spans_covers. eapply Forall_impl; [exact Hne |].
  intros s. unfold span_nonempty, span_wf. lia.
Qed.

(** *** The scenario of the specification, and a bridging segment *)

(** The two overlapping segments of the specification's scenario merge
    into the single span [[0x1000,0x4000)] with protection R|W. *)
Lemma merge_overlapping :
  merge_segments Ex.overlapping = [mkSegment 0x1000 0x4000 (Z.lor PROT_READ PROT_WRITE)].
Proof. reflexivity. Qed.

(** C1. The merge step of [mapBinary] is a single pass: a segment is
    absorbed by the first span it overlaps and the loop moves on. On two
    separate pages followed by a segment that spans both, the result keeps
    two spans that overlap, so it is not pairwise disjoint, and merging the
    result once more gives a different (single-span) list. *)
Theorem merge_segments_not_disjoint :
  merge_segments Ex.bridging
    = [mkSegment 0x1000 0x4000 (Z.lor PROT_READ PROT_WRITE); mkSegment 0x3000 0x4000 PROT_READ]
  /\ pairwise_disjoint (merge_segments Ex.bridging) = false
  /\ merge_segments (map as_raw (merge_segments Ex.bridging))
     = [mkSegment 0x1000 0x4000 (Z.lor PROT_READ PROT_WRITE)]
  /\ merge_segments (map as_raw (merge_segments Ex.bridging)) <> merge_segments Ex.bridging
  /\ merge_spans (merge_segments Ex.bridging) <> merge_segments Ex.bridging.
Proof.
  split; [reflexivity |]. split; [reflexivity |]. split; [reflexivity |].
  split; vm_compute; discriminate.
Qed.

(** ** The closure [symbolicate] *)

Lemma eligible_dist addr s : eligible addr s = true -> 0 <= dist64 addr s.
Proof.
  unfold eligible. intros He.
  apply andb_prop in He as [_ He]. apply andb_prop in He as [He _].
  apply andb_prop in He as [He _]. lia.
Qed.

Lemma symbolicate_visit_eq addr nearest min s :
  symbolicate_visit addr (nearest, min) s
  = if eligible addr s
    then (<[dist64 addr s := (nearest !!! dist64 addr s) ++ [s]]> nearest,
          if (dist64 addr s <? min) || (min =? -1) then dist64 addr s else min)
    else (nearest, min).
Proof.
  unfold symbolicate_visit. fold (dist64 addr s).
  destruct (eligible addr s) eqn:He.
  - pose proof (eligible_dist _ _ He) as Hd.
    unfold eligible in He. fold (dist64 addr s) in He.
    destruct (sym_Start s =? 0); [discriminate |]. cbn in He. rewrite He.
    rewrite of_int64_nonneg by exact Hd. reflexivity.
  - unfold eligible in He. fold (dist64 addr s) in He.
    destruct (sym_Start s =? 0); [reflexivity |]. cbn in He. rewrite He. reflexivity.
Qed.

Lemma visited_init addr : visited addr [] (∅, -1).
Proof.
  unfold visited. cbn. repeat split; done.
Qed.

Lemma visited_step addr seen acc s :
  visited addr seen acc -> visited addr (seen ++ [s]) (symbolicate_visit addr acc s).
Proof.
  destruct acc as [nearest min]. intros (Hk & He & Hmin0 & Hmin).
  rewrite symbolicate_visit_eq. unfold visited. rewrite List.filter_app. cbn [List.filter].
  destruct (eligible addr s) eqn:Hs; cbn [fst snd] in *.
  2: { rewrite app_nil_r. repeat split; try tauto; apply Hmin; assumption. }
  pose proof (eligible_dist _ _ Hs) as Hd.
  set (cands := List.filter (eligible addr) seen) in *.
  split; [| split; [| split]].
  - intros k. rewrite List.filter_app. cbn [List.filter].
    destruct (Z.eqb_spec (dist64 addr s) k) as [-> | Hne].
    + rewrite lookup_total_insert_eq, Hk. reflexivity.
    + rewrite lookup_total_insert_ne by exact Hne. rewrite app_nil_r. apply Hk.
  - split.
    + intros Hempty. exfalso. exact (insert_non_empty _ _ _ Hempty).
    + intros Hnil. destruct cands; discriminate.
  - intros Hnil. destruct cands; discriminate.
  - intros _. destruct cands as [| c0 cands'] eqn:Hc.
    + rewrite (Hmin0 eq_refl). cbn. rewrite orb_true_r. split; [left; reflexivity |].
      intros c [<- | []]. lia.
    + destruct Hmin as [Hin Hle]; [discriminate |].
      assert (0 <= min) as Hmin_pos.
      { apply in_map_iff in Hin as (c & <- & Hc_in).
        apply eligible_dist. subst cands.
        assert (In c (List.filter (eligible addr) seen)) as Hc' by (rewrite Hc; exact Hc_in).
        apply filter_In in Hc'. tauto. }
      replace (min =? -1) with false by (symmetry; apply Z.eqb_neq; lia).
      rewrite orb_false_r. rewrite map_app. cbn [map].
      destruct (Z.ltb_spec (dist64 addr s) min).
      * split; [apply in_or_app; right; left; reflexivity |].
        intros c Hc_in. apply in_app_or in Hc_in as [Hc_in | [<- | []]]; [| lia].
        specialize (Hle c Hc_in). lia.
      * split; [apply in_or_app; left; exact Hin |].
        intros c Hc_in. apply in_app_or in Hc_in as [Hc_in | [<- | []]]; [| lia].
        apply Hle, Hc_in.
Qed.

Lemma visited_fold addr symbols seen acc :
  visited addr seen acc ->
  visited addr (seen ++ symbols) (fold_left (symbolicate_visit addr) symbols acc).
Proof.
  revert seen acc. induction symbols as [| s symbols IH]; intros seen acc Hacc.
  - rewrite app_nil_r. exact Hacc.
  - cbn [fold_left]. replace (seen ++ s :: symbols) with ((seen ++ [s]) ++ symbols).
    + apply IH, visited_step, Hacc.
    + rewrite <- app_assoc. reflexivity.
Qed.

Lemma first_min_least {A : Type} (key : A -> Z) (l : list A) (m : Z) :
  In m (map key l) -> (forall c, In c l -> m <= key c) ->
  SymSpec.first_min key l = hd_error (List.filter (fun c => key c =? m) l).
Proof.
  induction l as [| a l IH]; intros Hin Hle; [destruct Hin |].
  cbn [SymSpec.first_min List.filter].
  destruct (Z.eqb_spec (key a) m) as [Ha | Ha].
  - cbn [hd_error]. destruct (SymSpec.first_min key l) as [b |] eqn:Hb; [| reflexivity].
    assert (In b l) as Hbl.
    { clear - Hb. revert b Hb. induction l as [| x l IHl]; intros b Hb; [discriminate |].
      cbn in Hb. destruct (SymSpec.first_min key l) as [y |].
      - destruct (key x <=? key y); injection Hb as <-; [left; reflexivity |].
        right. apply IHl. reflexivity.
      - injection Hb as <-. left. reflexivity. }
    assert (m <= key b) by (apply Hle; right; exact Hbl).
    destruct (Z.leb_spec (key a) (key b)); [reflexivity | lia].
  - destruct Hin as [Hin | Hin]; [congruence |].
    rewrite IH by (try exact Hin; intros c Hc; apply Hle; right; exact Hc).
    destruct (hd_error (List.filter (fun c => key c =? m) l)) as [b |] eqn:Hb.
    + assert (key b = m) as Hkb.
      { destruct (List.filter (fun c => key c =? m) l) as [| b' r] eqn:Hf; [discriminate |].
        injection Hb as ->.
        assert (In b (List.filter (fun c => key c =? m) l)) as Hb' by (rewrite Hf; left; reflexivity).
        apply filter_In in Hb' as [_ Hb']. lia. }
      assert (m <= key a) by (apply Hle; left; reflexivity).
      destruct (Z.leb_spec (key a) (key b)); [lia | reflexivity].
    + exfalso. apply in_map_iff in Hin as (c & Hc & Hcl).
      assert (In c (List.filter (fun c => key c =? m) l)) as Hc'.
      { apply filter_In. split; [exact Hcl | lia]. }
      destruct (List.filter (fun c => key c =? m) l); [destruct Hc' | discriminate].
Qed.

(** The closure returns the first eligible symbol of least signed
    distance, with that distance. *)
Lemma symbolicate_spec addr symbols :
  symbolicate addr symbols
  = match SymSpec.first_min (dist64 addr) (List.filter (eligible addr) symbols) with
    | Some s => (s, dist64 addr s)
    | None => (Symbol_zero, 0)
    end.
Proof.
  destruct symbols as [| s0 symbols0] eqn:Hsyms; [reflexivity |].
  rewrite <- Hsyms. unfold symbolicate.
  replace (match symbols with [] => (Symbol_zero, 0) | _ :: _ => _ end)
    with (let '(nearest, min) := fold_left (symbolicate_visit addr) symbols (∅, -1) in
          if 0 <? Z.of_nat (size nearest)
          then (hd Symbol_zero (nearest !!! U64.of_int64 min), U64.of_int64 min)
          else (Symbol_zero, 0)) by (rewrite Hsyms; reflexivity).
  clear Hsyms s0 symbols0.
  pose proof (visited_fold addr symbols [] _ (visited_init addr)) as Hv.
  rewrite app_nil_l in Hv.
  destruct (fold_left (symbolicate_visit addr) symbols (∅, -1)) as [nearest min].
  destruct Hv as (Hk & He & Hmin0 & Hmin). cbn [fst snd] in *.
  set (cands := List.filter (eligible addr) symbols) in *.
  destruct cands as [| c0 cands'] eqn:Hc.
  - assert (nearest = ∅) as -> by (apply He; reflexivity).
    rewrite map_size_empty. reflexivity.
  - destruct Hmin as [Hin Hle]; [discriminate |].
    assert (nearest <> ∅) as Hne by (intros Hn; apply He in Hn; discriminate).
    assert (size nearest <> 0%nat) as Hsz by (intros Hs; apply Hne, map_size_empty_iff, Hs).
    replace (0 <? Z.of_nat (size nearest)) with true by (symmetry; apply Z.ltb_lt; lia).
    rewrite (first_min_least _ _ min Hin Hle).
    assert (0 <= min) as Hmin_pos.
    { apply in_map_iff in Hin as (c & <- & Hc_in).
      apply eligible_dist.
      assert (In c (List.filter (eligible addr) symbols)) as Hc' by (fold cands; rewrite Hc; exact Hc_in).
      apply filter_In in Hc'. tauto. }
    assert (U64.of_int64 min = min) as ->.
    { apply in_map_iff in Hin as (c & <- & _). apply of_int64_nonneg. exact Hmin_pos. }
    rewrite Hk.
    destruct (List.filter (fun s => dist64 addr s =? min) (c0 :: cands')) as [| b r] eqn:Hf.
    + exfalso. apply in_map_iff in Hin as (c & Hcd & Hc_in).
      assert (In c (List.filter (fun s => dist64 addr s =? min) (c0 :: cands'))) as Hc'.
      { apply filter_In. split; [exact Hc_in | lia]. }
      rewrite Hf in Hc'. destruct Hc'.
    + cbn [hd hd_error].
      assert (In b (List.filter (fun s => dist64 addr s =? min) (c0 :: cands'))) as Hb
        by (rewrite Hf; left; reflexivity).
      apply filter_In in Hb as [_ Hb]. apply Z.eqb_eq in Hb. rewrite Hb. reflexivity.
Qed.

(** ** [Symbolicate] against the specification's wording *)

Lemma first_min_In {A : Type} (key : A -> Z) (l : list A) (a : A) :
  SymSpec.first_min key l = Some a -> In a l.
Proof.
  revert a. induction l as [| x l IH]; intros a Ha; [discriminate |].
  cbn in Ha. destruct (SymSpec.first_min key l) as [y |].
  - destruct (key x <=? key y); injection Ha as <-; [left; reflexivity |].
    right. apply IH. reflexivity.
  - injection Ha as <-. left. reflexivity.
Qed.

Lemma first_min_ext {A : Type} (key key' : A -> Z) (l : list A) :
  (forall a, In a l -> key a = key' a) ->
  SymSpec.first_min key l = SymSpec.first_min key' l.
Proof.
  induction l as [| x l IH]; intros Hext; [reflexivity |].
  cbn. rewrite IH by (intros a Ha; apply Hext; right; exact Ha).
  destruct (SymSpec.first_min key' l) as [y |] eqn:Hy; [| reflexivity].
  rewrite (Hext x) by (left; reflexivity).
  rewrite (Hext y) by (right; eapply first_min_In; exact Hy).
  reflexivity.
Qed.

Section InRange.

Variables pc b : Z.
Hypothesis Hpc : SymSpec.small pc.
Hypothesis Hb : SymSpec.small b.

Lemma dist64_small s :
  SymSpec.small (sym_Start s) -> dist64 (U64.sub pc b) s = pc - b - sym_Start s.
Proof.
  unfold SymSpec.small in *. intros Hs. unfold dist64, U64.sub.
  rewrite wrap_sub_l. apply to_int64_wrap. lia.
Qed.

Lemma eligible_small s :
  SymSpec.small (sym_Start s) ->
  eligible (U64.sub pc b) s = SymSpec.candidate (pc - b) s.
Proof.
  intros Hs. unfold eligible, SymSpec.candidate. rewrite (dist64_small s Hs).
  unfold SymSpec.small in *.
  destruct (sym_Start s =? 0); [reflexivity |]. cbn [negb andb].
  destruct (Z.leb_spec (sym_Start s) (pc - b)) as [Hle | Hgt].
  - replace (0 <=? pc - b - sym_Start s) with true by (symmetry; apply Z.leb_le; lia).
    unfold U64.of_int64, U64.add. rewrite wrap_add_r.
    replace (sym_Start s + (pc - b - sym_Start s)) with (pc - b) by lia.
    rewrite wrap_small by (unfold U64.modulus; lia).
    destruct (String.eqb (sym_Name s) ""); cbn; [apply andb_false_r | rewrite andb_true_r; reflexivity].
  - replace (0 <=? pc - b - sym_Start s) with false by (symmetry; apply Z.leb_gt; lia).
    cbn. rewrite andb_false_r. reflexivity.
Qed.

Lemma symbolicate_nearest symbols :
  SymSpec.small_symbols symbols ->
  symbolicate (U64.sub pc b) symbols
  = match SymSpec.nearest (pc - b) symbols with
    | Some s => (s, pc - b - sym_Start s)
    | None => (Symbol_zero, 0)
    end.
Proof.
  intros Hsyms. rewrite symbolicate_spec. unfold SymSpec.nearest.
  assert (Hf : List.filter (eligible (U64.sub pc b)) symbols
               = List.filter (SymSpec.candidate (pc - b)) symbols).
  { apply filter_ext_in. intros s Hs. apply eligible_small.
    eapply (proj1 (List.Forall_forall _ _)) in Hsyms; eassumption. }
  rewrite Hf.
  assert (Hd : forall s, In s (List.filter (SymSpec.candidate (pc - b)) symbols) ->
               dist64 (U64.sub pc b) s = pc - b - sym_Start s).
  { intros s Hs. apply filter_In in Hs as [Hs _]. apply dist64_small.
    eapply (proj1 (List.Forall_forall _ _)) in Hsyms; eassumption. }
  rewrite (first_min_ext _ (fun s => pc - b - sym_Start s) _ Hd).
  destruct (SymSpec.first_min _ _) as [s |] eqn:Hs; [| reflexivity].
  rewrite Hd by (eapply first_min_In; exact Hs). reflexivity.
Qed.

End InRange.

Lemma nearest_candidate offset symbols s :
  SymSpec.nearest offset symbols = Some s -> SymSpec.candidate offset s = true.
Proof.
  unfold SymSpec.nearest. intros Hs. apply first_min_In in Hs.
  apply filter_In in Hs. tauto.
Qed.

Lemma candidate_named offset s :
  SymSpec.candidate offset s = true ->
  String.eqb (sym_Name s) "" = false /\ 0 <= offset - sym_Start s.
Proof.
  unfold SymSpec.candidate. intros Hc.
  apply andb_prop in Hc as [Hc _]. apply andb_prop in Hc as [Hc Hle].
  apply andb_prop in Hc as [_ Hn]. apply negb_true_iff in Hn. split; [exact Hn | lia].
Qed.

Lemma Symbolicate_refines {M : Type} (demangle : string -> string) (u : Usercorn M) (pc : Z) :
  SymSpec.in_range u pc ->
  Symbolicate demangle u pc = (SymSpec.Symbolicate demangle u pc, None).
Proof.
  intros (Hpc & Hb & Hib & Hsyms & Hisyms).
  unfold Symbolicate, SymSpec.Symbolicate.
  rewrite (symbolicate_nearest pc (base u) Hpc Hb _ Hsyms).
  assert (Hinterp :
    symbolicate (U64.sub pc (interpBase u))
      match interpLoader u with Some il => (l_Symbols il).1 | None => [] end
    = match (match interpLoader u with
             | Some il => SymSpec.nearest (pc - interpBase u) (l_Symbols il).1
             | None => None
             end) with
      | Some s => (s, pc - interpBase u - sym_Start s)
      | None => (Symbol_zero, 0)
      end).
  { destruct (interpLoader u) as [il |]; [| reflexivity].
    apply symbolicate_nearest; assumption. }
  rewrite Hinterp. clear Hinterp.
  destruct (SymSpec.nearest (pc - base u) (l_Symbols (loader u)).1) as [s |] eqn:Hs;
    [apply nearest_candidate, candidate_named in Hs as [Hsn Hsd] |];
    (destruct (interpLoader u) as [il |];
     [destruct (SymSpec.nearest (pc - interpBase u) (l_Symbols il).1) as [i |] eqn:Hi;
      [apply nearest_candidate, candidate_named in Hi as [Hin Hid] |] |]);
    cbn [fmap option_fmap option_map SymSpec.pick sym_Name Symbol_zero].
  all: unfold SymSpec.render.
  all: repeat match goal with
         | H : String.eqb _ "" = false |- _ => rewrite H
         end; cbn [negb andb orb].
  all: try rewrite andb_true_r; try rewrite andb_false_r; try rewrite orb_false_r;
       try rewrite orb_true_r.
  - destruct (pc - interpBase u - sym_Start i <? pc - base u - sym_Start s).
    + rewrite Hin. cbn [negb].
      destruct (Z.ltb_spec 0 (pc - interpBase u - sym_Start i));
        destruct (Z.eqb_spec (pc - interpBase u - sym_Start i) 0); try lia; reflexivity.
    + rewrite Hsn. cbn [negb].
      destruct (Z.ltb_spec 0 (pc - base u - sym_Start s));
        destruct (Z.eqb_spec (pc - base u - sym_Start s) 0); try lia; reflexivity.
  - rewrite Hsn. cbn [negb].
    destruct (Z.ltb_spec 0 (pc - base u - sym_Start s));
      destruct (Z.eqb_spec (pc - base u - sym_Start s) 0); try lia; reflexivity.
  - rewrite Hsn. cbn [negb].
    destruct (Z.ltb_spec 0 (pc - base u - sym_Start s));
      destruct (Z.eqb_spec (pc - base u - sym_Start s) 0); try lia; reflexivity.
  - rewrite Hin. cbn [negb].
    destruct (Z.ltb_spec 0 (pc - interpBase u - sym_Start i));
      destruct (Z.eqb_spec (pc - interpBase u - sym_Start i) 0); try lia; reflexivity.
  - reflexivity.
  - reflexivity.
Qed.

(** C2 (amended). For addresses below [2^62], [Symbolicate] is the
    specification's nearest-symbol lookup: with the offsets [pc - base] and
    [pc - interpBase], each image proposes, among its symbols with
    [Start <> 0], a non-empty name, [Start <= offset] and [offset <= End]
    or [End = 0], the first one of least [offset - Start]; the interpreter's
    proposal wins only with a strictly smaller distance; the result is the
    bare name at distance 0 and [name+0xN] otherwise, and the empty string
    when no image proposes a symbol. With the symbols [f = [100,120]] and
    [g = [200, open)], [base+110] reads "f+0xa", [base+200] reads "g", and
    [base+10000], which the open-ended [g] covers, reads "g+0x2648". *)
Theorem Symbolicate_nearest {M : Type} (demangle : string -> string) (u : Usercorn M) (pc : Z) :
  SymSpec.in_range u pc ->
  Symbolicate demangle u pc = (SymSpec.Symbolicate demangle u pc, None)
  /\ (fst (l_Symbols (loader u)) = Ex.fg -> interpLoader u = None -> Demangle u = false ->
      (pc = base u + 110 -> fst (Symbolicate demangle u pc) = "f+0xa")
      /\ (pc = base u + 200 -> fst (Symbolicate demangle u pc) = "g")
      /\ (pc = base u + 10000 -> fst (Symbolicate demangle u pc) = "g+0x2648")).
Proof.
  intros Hrange. pose proof (Symbolicate_refines demangle u pc Hrange) as Href.
  split; [exact Href |].
  intros Hsyms Hinterp Hdem. rewrite Href. cbn [fst].
  unfold SymSpec.Symbolicate. rewrite Hsyms, Hinterp, Hdem.
  repeat split; intros ->.
  - replace (base u + 110 - base u) with 110 by lia. reflexivity.
  - replace (base u + 200 - base u) with 200 by lia. reflexivity.
  - replace (base u + 10000 - base u) with 10000 by lia. reflexivity.
Qed.

Lemma Symbolicate_nearest_witness :
  SymSpec.in_range (Ex.emulator (Ex.binary Ex.fg) 0x400000) (0x400000 + 110)
  /\ fst (Symbolicate id (Ex.emulator (Ex.binary Ex.fg) 0x400000) (0x400000 + 110)) = "f+0xa".
Proof.
  assert (Hr : SymSpec.in_range (Ex.emulator (Ex.binary Ex.fg) 0x400000) (0x400000 + 110)).
  { unfold SymSpec.in_range, SymSpec.small_symbols, SymSpec.small. cbn.
    repeat split; try lia.
    repeat constructor; cbn; lia. }
  split; [exact Hr |].
  apply (Symbolicate_nearest id _ _ Hr); reflexivity.
Defined.

(** At [base+10000] the open-ended symbol [g] is a candidate: the result is
    not the empty string. *)
Lemma Symbolicate_open_ended_far :
  fst (Symbolicate id (Ex.emulator (Ex.binary Ex.fg) 0x400000) (0x400000 + 10000)) <> "".
Proof. vm_compute. discriminate. Qed.

(** ** Deadlock detection *)

Lemma Changes_Count_same_from (pre regs : list Z) :
  Changes_Count (imap (fun i v => (nth (length pre + i) (pre ++ regs) 0, v)) regs) = 0.
Proof.
  revert pre. induction regs as [| r regs IH]; intros pre; [reflexivity |].
  rewrite imap_cons. unfold Changes_Count in *. cbn [List.filter fst snd].
  rewrite Nat.add_0_r, app_nth2, Nat.sub_diag by lia. cbn [nth].
  rewrite Z.eqb_refl. cbn [negb].
  specialize (IH (pre ++ [r])). etransitivity; [| exact IH]. f_equal. f_equal. f_equal.
  apply imap_ext. intros i x _. cbn. rewrite <- app_assoc, length_app. cbn.
  f_equal. f_equal. lia.
Qed.

Lemma regs_unchanged_refl (regs : list Z) : regs_unchanged regs regs.
Proof. exact (Changes_Count_same_from [] regs). Qed.

Lemma Changes_Count_nonneg (cs : list (Z * Z)) : 0 <= Changes_Count cs.
Proof. unfold Changes_Count. lia. Qed.

Lemma I64_add_small a b : - 2 ^ 63 <= a + b < 2 ^ 63 -> I64.add a b = a + b.
Proof. intros Hab. unfold I64.add, I64.wrap. apply to_int64_wrap. exact Hab. Qed.

Ltac hook_simpl :=
  cbn [set_mem set_status set_deadlock set_stderr set_stopped set_lastCode eprint
       traceMatching TraceExec TraceReg lastCode status mem blockloop deadlock stderr
       stopped negb andb orb fst snd obind Count Print Stop is_nil].

Section CodeHook.

Context {M : Type} {cpu : CPU M}.
Variable demangle : string -> string.

Variable u : Usercorn M.
Hypothesis Hmatching : traceMatching u = true.
Hypothesis Hexec : TraceExec u = true.
Hypothesis Hcount : 0 <= deadlock u < 2 ^ 63 - 1.

Variables (addr size : Z) (m : M).

(** The hook at the PC of the previous call, the registers as the
    snapshot holds them: the counter grows by one, and past two the
    fatal message is printed and the engine stopped. *)
Lemma observe_unchanged :
  lastCode u = addr ->
  regs_unchanged (status u) (cpu_RegDump m) ->
  exists printed,
    observe demangle u (addr, size, m)
    = Returned (hooked u m (cpu_RegDump m) (deadlock u + 1) printed
                       (if 2 <? deadlock u + 1 then true else stopped u) addr)
    /\ (2 < deadlock u + 1 ->
        In (EvFatalDeadlock addr (fatal_sym (fst (Symbolicate demangle u addr)))) printed).
Proof.
  intros Hlast Hregs. unfold regs_unchanged in Hregs.
  destruct u as [m0 os0 exe0 l0 il0 b0 ib0 brk0 tsys texec treg tmatch fb fib dem lp
                   st stl bl lc dl err stp].
  cbn in Hmatching, Hexec, Hcount, Hlast, Hregs. subst tmatch texec lc.
  unfold observe, hookCode, hookCode_trace, hookCode_deadlock, StatusDiff_Changes, hooked.
  hook_simpl. rewrite Z.eqb_refl. hook_simpl.
  destruct bl as [loops |]; destruct treg; hook_simpl.
  all: try (destruct (loops =? 0); hook_simpl).
  all: rewrite ?Hregs; change (0 <? 0) with false; change (0 =? 0) with true; hook_simpl.
  all: rewrite ?Z.eqb_refl; hook_simpl; rewrite ?Hregs; change (0 <? 0) with false; hook_simpl.
  all: rewrite (I64_add_small dl 1) by lia.
  all: destruct (Z.ltb_spec 2 (dl + 1)); hook_simpl.
  all: rewrite <- ?app_assoc; cbn [app];
    first [ eexists; split; [reflexivity |]
          | exists []; rewrite app_nil_r; split; [reflexivity |] ];
    intros Hfire; try lia.
  all: unfold fatal_sym; repeat (first [left; reflexivity | right]).
Qed.

(** A call of the hook, whatever the previous PC and the registers: it
    returns, takes the snapshot when register tracing is on, and leaves
    a counter that is at most one above the previous one. *)
Lemma observe_any :
  exists snapshot count printed stop,
    observe demangle u (addr, size, m)
    = Returned (hooked u m snapshot count printed stop addr)
    /\ 0 <= count <= deadlock u + 1
    /\ (TraceReg u = true \/ lastCode u = addr -> snapshot = cpu_RegDump m)
    /\ (TraceReg u = false -> lastCode u <> addr -> snapshot = status u).
Proof.
  destruct u as [m0 os0 exe0 l0 il0 b0 ib0 brk0 tsys texec treg tmatch fb fib dem lp
                   st stl bl lc dl err stp].
  cbn in Hmatching, Hexec, Hcount. subst tmatch texec.
  unfold observe, hookCode, hookCode_trace, hookCode_deadlock, StatusDiff_Changes, hooked.
  hook_simpl.
  pose proof (Changes_Count_nonneg (imap (fun i v => (nth i st 0, v)) (cpu_RegDump m))) as Hn.
  assert (Hcases :
    (Changes_Count (imap (fun i v => (nth i st 0, v)) (cpu_RegDump m)) =? 0) = true
    /\ (0 <? Changes_Count (imap (fun i v => (nth i st 0, v)) (cpu_RegDump m))) = false
    \/ (Changes_Count (imap (fun i v => (nth i st 0, v)) (cpu_RegDump m)) =? 0) = false
       /\ (0 <? Changes_Count (imap (fun i v => (nth i st 0, v)) (cpu_RegDump m))) = true).
  { destruct (Z.eqb_spec (Changes_Count (imap (fun i v => (nth i st 0, v)) (cpu_RegDump m))) 0);
      destruct (Z.ltb_spec 0 (Changes_Count (imap (fun i v => (nth i st 0, v)) (cpu_RegDump m))));
      try tauto; lia. }
  destruct Hcases as [[Ha Hb] | [Ha Hb]];
    destruct (addr =? lc) eqn:Heq;
    destruct treg;
    destruct bl as [loops |];
    repeat (hook_simpl; rewrite ?Heq, ?Ha, ?Hb, ?(I64_add_small dl 1) by lia);
    try (destruct (loops =? 0);
         repeat (hook_simpl; rewrite ?Heq, ?Ha, ?Hb, ?(I64_add_small dl 1) by lia));
    try (destruct (Z.ltb_spec 2 (dl + 1)); hook_simpl);
    try (change (2 <? 0) with false; hook_simpl);
    rewrite <- ?app_assoc; cbn [app].
  all: first [ eexists _, _, _, _; split; [reflexivity |]
             | eexists _, _, [], _; rewrite app_nil_r; split; [reflexivity |] ].
  all: try (apply Z.eqb_neq in Heq).
  all: repeat split; try lia; try tauto; try congruence.
  all: intros [? | ?]; congruence.
Qed.



(** The hook away from the previous PC, or with a register that
    changed since the snapshot: the counter restarts and nothing fatal
    is printed. *)
Lemma observe_changed :
  lastCode u <> addr \/ ~ regs_unchanged (status u) (cpu_RegDump m) ->
  exists snapshot printed,
    observe demangle u (addr, size, m)
    = Returned (hooked u m snapshot 0 printed (stopped u) addr)
    /\ forall a sym, ~ In (EvFatalDeadlock a sym) printed.
Proof.
  intros Hchg. unfold regs_unchanged in Hchg.
  destruct u as [m0 os0 exe0 l0 il0 b0 ib0 brk0 tsys texec treg tmatch fb fib dem lp
                   st stl bl lc dl err stp].
  cbn in Hmatching, Hexec, Hcount, Hchg. subst tmatch texec.
  unfold observe, hookCode, hookCode_trace, hookCode_deadlock, StatusDiff_Changes, hooked.
  hook_simpl.
  pose proof (Changes_Count_nonneg (imap (fun i v => (nth i st 0, v)) (cpu_RegDump m))) as Hn.
  assert (Hcases :
    (addr =? lc) = false
    \/ (addr =? lc) = true
       /\ (Changes_Count (imap (fun i v => (nth i st 0, v)) (cpu_RegDump m)) =? 0) = false
       /\ (0 <? Changes_Count (imap (fun i v => (nth i st 0, v)) (cpu_RegDump m))) = true).
  { destruct (Z.eqb_spec addr lc) as [-> | Hne]; [right | left; reflexivity].
    split; [reflexivity |].
    destruct (Z.eqb_spec (Changes_Count (imap (fun i v => (nth i st 0, v)) (cpu_RegDump m))) 0);
      destruct (Z.ltb_spec 0 (Changes_Count (imap (fun i v => (nth i st 0, v)) (cpu_RegDump m))));
      try tauto; lia. }
  destruct Hcases as [Heq | (Heq & Ha & Hb)];
    destruct treg;
    destruct bl as [loops |];
    repeat (hook_simpl; rewrite ?Heq, ?Ha, ?Hb, ?(I64_add_small dl 1) by lia);
    try (destruct (loops =? 0);
         repeat (hook_simpl; rewrite ?Heq, ?Ha, ?Hb, ?(I64_add_small dl 1) by lia));
    try (destruct (Changes_Count (imap (fun i v => (nth i st 0, v)) (cpu_RegDump m)) =? 0);
         repeat (hook_simpl; rewrite ?Heq, ?Ha, ?Hb, ?(I64_add_small dl 1) by lia));
    try (change (2 <? 0) with false; hook_simpl);
    rewrite <- ?app_assoc; cbn [app].
  all: first [ eexists _, _; split; [reflexivity |]
             | eexists _, []; rewrite app_nil_r; split; [reflexivity |] ].
  all: intros a sym Hin; cbn in Hin; intuition discriminate.
Qed.

(** The hook at the PC of the previous call with the registers of the
    snapshot, while the counter stays at or below 2: it counts, prints
    nothing fatal and does not stop. *)
Lemma observe_counting :
  lastCode u = addr ->
  regs_unchanged (status u) (cpu_RegDump m) ->
  deadlock u + 1 <= 2 ->
  exists printed,
    observe demangle u (addr, size, m)
    = Returned (hooked u m (cpu_RegDump m) (deadlock u + 1) printed (stopped u) addr)
    /\ forall a sym, ~ In (EvFatalDeadlock a sym) printed.
Proof.
  intros Hlast Hregs Hlow. unfold regs_unchanged in Hregs.
  destruct u as [m0 os0 exe0 l0 il0 b0 ib0 brk0 tsys texec treg tmatch fb fib dem lp
                   st stl bl lc dl err stp].
  cbn in Hmatching, Hexec, Hcount, Hlast, Hregs, Hlow. subst tmatch texec lc.
  unfold observe, hookCode, hookCode_trace, hookCode_deadlock, StatusDiff_Changes, hooked.
  hook_simpl. rewrite Z.eqb_refl. hook_simpl.
  destruct bl as [loops |]; destruct treg; hook_simpl.
  all: try (destruct (loops =? 0); hook_simpl).
  all: rewrite ?Hregs; change (0 <? 0) with false; change (0 =? 0) with true; hook_simpl.
  all: rewrite ?Z.eqb_refl; hook_simpl; rewrite ?Hregs; change (0 <? 0) with false; hook_simpl.
  all: rewrite (I64_add_small dl 1) by lia.
  all: destruct (Z.ltb_spec 2 (dl + 1)); [lia |]; hook_simpl.
  all: rewrite <- ?app_assoc; cbn [app];
    first [ eexists; split; [reflexivity |]
          | exists []; rewrite app_nil_r; split; [reflexivity |] ].
  all: intros a sym Hin; cbn in Hin; intuition discriminate.
Qed.

End CodeHook.

Lemma hooked_fields {M : Type} (demangle : string -> string) (u : Usercorn M) (m : M)
    (snapshot : list Z) (count : Z) (printed : list Event) (stop : bool) (addr : Z) :
  let u' := hooked u m snapshot count printed stop addr in
  traceMatching u' = traceMatching u /\ TraceExec u' = TraceExec u
  /\ TraceReg u' = TraceReg u /\ lastCode u' = addr /\ status u' = snapshot
  /\ deadlock u' = count /\ stderr u' = stderr u ++ printed /\ stopped u' = stop
  /\ forall pc, Symbolicate demangle u' pc = Symbolicate demangle u pc.
Proof. destruct u. cbn. repeat split; reflexivity. Qed.

(** The path that detects the deadlock as intended. With instruction
    tracing on and the trace match open: when the code hook observes the
    same PC four times in a row and the registers are those of the
    snapshot throughout (with register tracing on the snapshot is taken
    at the first observation), the fourth observation prints the fatal
    deadlock message with the PC and its symbol and calls [Stop]. An
    observation at another PC, or with a register changed since the
    snapshot, puts the counter back to 0 and prints nothing fatal. *)
Lemma deadlock_detection {M : Type} {cpu : CPU M} (demangle : string -> string)
    (u : Usercorn M) (addr s1 s2 s3 s4 : Z) (m1 m2 m3 m4 : M) :
  traceMatching u = true ->
  TraceExec u = true ->
  0 <= deadlock u < 2 ^ 62 ->
  (TraceReg u = true \/ regs_unchanged (status u) (cpu_RegDump m1) ->
   cpu_RegDump m2 = cpu_RegDump m1 ->
   cpu_RegDump m3 = cpu_RegDump m1 ->
   cpu_RegDump m4 = cpu_RegDump m1 ->
   exists u3 u4 printed,
     observe_all demangle u [(addr, s1, m1); (addr, s2, m2); (addr, s3, m3)] = Returned u3
     /\ observe demangle u3 (addr, s4, m4) = Returned u4
     /\ stderr u4 = stderr u3 ++ printed
     /\ In (EvFatalDeadlock addr (fatal_sym (fst (Symbolicate demangle u addr)))) printed
     /\ stopped u4 = true)
  /\ (lastCode u <> addr \/ ~ regs_unchanged (status u) (cpu_RegDump m1) ->
      exists u1 printed,
        observe demangle u (addr, s1, m1) = Returned u1
        /\ deadlock u1 = 0
        /\ stopped u1 = stopped u
        /\ stderr u1 = stderr u ++ printed
        /\ forall a sym, ~ In (EvFatalDeadlock a sym) printed).
Proof.
  intros Hmatch Hexec Hcount. split.
  - intros Hfresh H2 H3 H4.
    (* first observation *)
    destruct (observe_any demangle u Hmatch Hexec ltac:(lia) addr s1 m1)
      as (sn1 & c1 & p1 & st1 & Ho1 & Hc1 & Hsn1 & Hsn1').
    set (u1 := hooked u m1 sn1 c1 p1 st1 addr) in *.
    destruct (hooked_fields demangle u m1 sn1 c1 p1 st1 addr)
      as (Hm1 & He1 & Hr1 & Hl1 & Hs1 & Hd1 & _ & _ & Hsym1). fold u1 in Hm1, He1, Hr1, Hl1, Hs1, Hd1, Hsym1.
    assert (Hu1 : regs_unchanged (status u1) (cpu_RegDump m2)).
    { rewrite Hs1, H2.
      destruct (TraceReg u) eqn:Hreg.
      - rewrite Hsn1 by (left; reflexivity). apply regs_unchanged_refl.
      - destruct (Z.eq_dec (lastCode u) addr) as [Hlc | Hlc].
        + rewrite Hsn1 by (right; exact Hlc). apply regs_unchanged_refl.
        + rewrite Hsn1' by (reflexivity || exact Hlc).
          destruct Hfresh as [? | Hfresh]; [discriminate | exact Hfresh]. }
    (* second observation *)
    destruct (observe_unchanged demangle u1 ltac:(congruence) ltac:(congruence)
                ltac:(lia) addr s2 m2 Hl1 Hu1) as (p2 & Ho2 & _).
    set (u2 := hooked u1 m2 _ _ p2 _ addr) in *.
    destruct (hooked_fields demangle u1 m2 (cpu_RegDump m2) (deadlock u1 + 1) p2
                (if 2 <? deadlock u1 + 1 then true else stopped u1) addr)
      as (Hm2 & He2 & Hr2 & Hl2 & Hs2 & Hd2 & _ & _ & Hsym2).
    fold u2 in Hm2, He2, Hr2, Hl2, Hs2, Hd2, Hsym2.
    assert (Hu2 : regs_unchanged (status u2) (cpu_RegDump m3)).
    { rewrite Hs2, H3, H2. apply regs_unchanged_refl. }
    (* third observation *)
    destruct (observe_unchanged demangle u2 ltac:(congruence) ltac:(congruence)
                ltac:(lia) addr s3 m3 Hl2 Hu2) as (p3 & Ho3 & _).
    set (u3 := hooked u2 m3 _ _ p3 _ addr) in *.
    destruct (hooked_fields demangle u2 m3 (cpu_RegDump m3) (deadlock u2 + 1) p3
                (if 2 <? deadlock u2 + 1 then true else stopped u2) addr)
      as (Hm3 & He3 & Hr3 & Hl3 & Hs3 & Hd3 & _ & _ & Hsym3).
    fold u3 in Hm3, He3, Hr3, Hl3, Hs3, Hd3, Hsym3.
    assert (Hu3 : regs_unchanged (status u3) (cpu_RegDump m4)).
    { rewrite Hs3, H4, H3. apply regs_unchanged_refl. }
    (* fourth observation *)
    destruct (observe_unchanged demangle u3 ltac:(congruence) ltac:(congruence)
                ltac:(lia) addr s4 m4 Hl3 Hu3) as (p4 & Ho4 & Hfatal).
    destruct (hooked_fields demangle u3 m4 (cpu_RegDump m4) (deadlock u3 + 1) p4
                (if 2 <? deadlock u3 + 1 then true else stopped u3) addr)
      as (_ & _ & _ & _ & _ & _ & Herr4 & Hstop4 & _).
    exists u3, (hooked u3 m4 (cpu_RegDump m4) (deadlock u3 + 1) p4
                  (if 2 <? deadlock u3 + 1 then true else stopped u3) addr), p4.
    split; [| split; [exact Ho4 | split; [exact Herr4 | split]]].
    + cbn [observe_all]. rewrite Ho1. cbn [obind]. fold u1. rewrite Ho2. cbn [obind].
      fold u2. rewrite Ho3. reflexivity.
    + rewrite <- Hsym1, <- Hsym2, <- Hsym3. apply Hfatal. lia.
    + rewrite Hstop4. destruct (Z.ltb_spec 2 (deadlock u3 + 1)); [reflexivity | lia].
  - intros Hchg.
    destruct (observe_changed demangle u Hmatch Hexec ltac:(lia) addr s1 m1 Hchg)
      as (sn & p & Ho & Hnofatal).
    destruct (hooked_fields demangle u m1 sn 0 p (stopped u) addr)
      as (_ & _ & _ & _ & _ & Hd & Herr & Hstop & _).
    exists (hooked u m1 sn 0 p (stopped u) addr), p. repeat split; assumption.
Qed.

Lemma deadlock_detection_witness :
  exists u3 u4,
    observe_all id (Ex.tracing true) [Ex.at_g; Ex.at_g; Ex.at_g] = Returned u3
    /\ observe id u3 Ex.at_g = Returned u4
    /\ stopped u4 = true.
Proof.
  destruct (deadlock_detection id (Ex.tracing true) 0x4000c8 2 2 2 2
              (Ex.machine_with [0x7fff0000; 0]) (Ex.machine_with [0x7fff0000; 0])
              (Ex.machine_with [0x7fff0000; 0]) (Ex.machine_with [0x7fff0000; 0]))
    as [Hfire _]; [reflexivity | reflexivity | cbn; lia |].
  destruct Hfire as (u3 & u4 & printed & H3 & H4 & _ & _ & Hstop);
    [left; reflexivity | reflexivity | reflexivity | reflexivity |].
  exists u3, u4. repeat split; assumption.
Defined.

(** Two results of one call of the hook agree field by field. *)
Lemma hooked_inj {M : Type} (u : Usercorn M) (m : M) (sn sn' : list Z) (c c' : Z)
    (p p' : list Event) (st st' : bool) (addr : Z) :
  hooked u m sn c p st addr = hooked u m sn' c' p' st' addr ->
  sn = sn' /\ c = c' /\ p = p' /\ st = st'.
Proof.
  destruct u. unfold hooked. cbn. intros Heq. injection Heq as Hsn Hc Hp Hst.
  apply app_inv_head in Hp. repeat split; assumption.
Qed.

(** C3. Instruction tracing without register tracing, the code hook
    reaching a PC other than the previous one with registers that differ
    from the snapshot (the snapshot is only taken at a repeated PC, so it
    is older than the first observation). The same PC observed four times
    in a row with the same registers does not stop the run: the second
    observation takes the snapshot, reports the old difference as a
    change and puts the counter back to 0, so that the fourth observation
    leaves the counter at 2, the engine running and nothing fatal printed.
    The fatal message and [Stop] come with the fifth observation. *)
Theorem deadlock_late_snapshot {M : Type} {cpu : CPU M} (demangle : string -> string)
    (u : Usercorn M) (addr s1 s2 s3 s4 s5 : Z) (m1 m2 m3 m4 m5 : M) :
  traceMatching u = true ->
  TraceExec u = true ->
  TraceReg u = false ->
  0 <= deadlock u < 2 ^ 62 ->
  lastCode u <> addr ->
  ~ regs_unchanged (status u) (cpu_RegDump m1) ->
  cpu_RegDump m2 = cpu_RegDump m1 ->
  cpu_RegDump m3 = cpu_RegDump m1 ->
  cpu_RegDump m4 = cpu_RegDump m1 ->
  cpu_RegDump m5 = cpu_RegDump m1 ->
  exists u4 u5 printed printed',
    observe_all demangle u [(addr, s1, m1); (addr, s2, m2); (addr, s3, m3); (addr, s4, m4)]
    = Returned u4
    /\ deadlock u4 = 2
    /\ stopped u4 = stopped u
    /\ stderr u4 = stderr u ++ printed
    /\ (forall a sym, ~ In (EvFatalDeadlock a sym) printed)
    /\ observe demangle u4 (addr, s5, m5) = Returned u5
    /\ stderr u5 = stderr u4 ++ printed'
    /\ In (EvFatalDeadlock addr (fatal_sym (fst (Symbolicate demangle u addr)))) printed'
    /\ stopped u5 = true.
Proof.
  intros Hmatch Hexec Hreg Hcount Hlast Hstale H2 H3 H4 H5.
  (* first observation: another PC, no snapshot *)
  destruct (observe_changed demangle u Hmatch Hexec ltac:(lia) addr s1 m1 (or_introl Hlast))
    as (sn1 & p1 & Ho1 & Hq1).
  destruct (observe_any demangle u Hmatch Hexec ltac:(lia) addr s1 m1)
    as (sn1' & c1' & p1' & st1' & Ho1' & _ & _ & Hkeep).
  rewrite Ho1 in Ho1'. injection Ho1' as Hsame.
  apply hooked_inj in Hsame as (<- & _ & _ & _).
  specialize (Hkeep Hreg Hlast). subst sn1.
  set (u1 := hooked u m1 (status u) 0 p1 (stopped u) addr) in *.
  destruct (hooked_fields demangle u m1 (status u) 0 p1 (stopped u) addr)
    as (Hm1 & He1 & Hr1 & Hl1 & Hs1 & Hd1 & Herr1 & Hstop1 & Hsym1).
  fold u1 in Hm1, He1, Hr1, Hl1, Hs1, Hd1, Herr1, Hstop1, Hsym1.
  (* second observation: the snapshot is taken and shows the old difference *)
  assert (Hstale1 : ~ regs_unchanged (status u1) (cpu_RegDump m2)) by (rewrite Hs1, H2; exact Hstale).
  destruct (observe_changed demangle u1 ltac:(congruence) ltac:(congruence) ltac:(lia)
              addr s2 m2 (or_intror Hstale1)) as (sn2 & p2 & Ho2 & Hq2).
  destruct (observe_any demangle u1 ltac:(congruence) ltac:(congruence) ltac:(lia) addr s2 m2)
    as (sn2' & c2' & p2' & st2' & Ho2' & _ & Htake & _).
  rewrite Ho2 in Ho2'. injection Ho2' as Hsame.
  apply hooked_inj in Hsame as (<- & _ & _ & _).
  specialize (Htake (or_intror Hl1)). subst sn2.
  set (u2 := hooked u1 m2 (cpu_RegDump m2) 0 p2 (stopped u1) addr) in *.
  destruct (hooked_fields demangle u1 m2 (cpu_RegDump m2) 0 p2 (stopped u1) addr)
    as (Hm2 & He2 & Hr2 & Hl2 & Hs2 & Hd2 & Herr2 & Hstop2 & Hsym2).
  fold u2 in Hm2, He2, Hr2, Hl2, Hs2, Hd2, Herr2, Hstop2, Hsym2.
  (* third observation: the counter reaches 1 *)
  assert (Hu2 : regs_unchanged (status u2) (cpu_RegDump m3)).
  { rewrite Hs2, H3, H2. apply regs_unchanged_refl. }
  destruct (observe_counting demangle u2 ltac:(congruence) ltac:(congruence) ltac:(lia)
              addr s3 m3 Hl2 Hu2 ltac:(lia)) as (p3 & Ho3 & Hq3).
  set (u3 := hooked u2 m3 (cpu_RegDump m3) (deadlock u2 + 1) p3 (stopped u2) addr) in *.
  destruct (hooked_fields demangle u2 m3 (cpu_RegDump m3) (deadlock u2 + 1) p3 (stopped u2) addr)
    as (Hm3 & He3 & Hr3 & Hl3 & Hs3 & Hd3 & Herr3 & Hstop3 & Hsym3).
  fold u3 in Hm3, He3, Hr3, Hl3, Hs3, Hd3, Herr3, Hstop3, Hsym3.
  (* fourth observation: the counter reaches 2 *)
  assert (Hu3 : regs_unchanged (status u3) (cpu_RegDump m4)).
  { rewrite Hs3, H4, H3. apply regs_unchanged_refl. }
  destruct (observe_counting demangle u3 ltac:(congruence) ltac:(congruence) ltac:(lia)
              addr s4 m4 Hl3 Hu3 ltac:(lia)) as (p4 & Ho4 & Hq4).
  set (u4 := hooked u3 m4 (cpu_RegDump m4) (deadlock u3 + 1) p4 (stopped u3) addr) in *.
  destruct (hooked_fields demangle u3 m4 (cpu_RegDump m4) (deadlock u3 + 1) p4 (stopped u3) addr)
    as (Hm4 & He4 & Hr4 & Hl4 & Hs4 & Hd4 & Herr4 & Hstop4 & Hsym4).
  fold u4 in Hm4, He4, Hr4, Hl4, Hs4, Hd4, Herr4, Hstop4, Hsym4.
  (* fifth observation: the counter passes 2 *)
  assert (Hu4 : regs_unchanged (status u4) (cpu_RegDump m5)).
  { rewrite Hs4, H5, H4. apply regs_unchanged_refl. }
  destruct (observe_unchanged demangle u4 ltac:(congruence) ltac:(congruence) ltac:(lia)
              addr s5 m5 Hl4 Hu4) as (p5 & Ho5 & Hfatal).
  destruct (hooked_fields demangle u4 m5 (cpu_RegDump m5) (deadlock u4 + 1) p5
              (if 2 <? deadlock u4 + 1 then true else stopped u4) addr)
    as (_ & _ & _ & _ & _ & _ & Herr5 & Hstop5 & _).
  exists u4, (hooked u4 m5 (cpu_RegDump m5) (deadlock u4 + 1) p5
                (if 2 <? deadlock u4 + 1 then true else stopped u4) addr),
         (p1 ++ p2 ++ p3 ++ p4), p5.
  split; [| split; [| split; [| split; [| split; [| split; [| split; [| split]]]]]]].
  - cbn [observe_all]. rewrite Ho1. cbn [obind]. fold u1. rewrite Ho2. cbn [obind].
    fold u2. rewrite Ho3. cbn [obind]. fold u3. rewrite Ho4. reflexivity.
  - lia.
  - congruence.
  - rewrite Herr4, Herr3, Herr2, Herr1, <- !app_assoc. reflexivity.
  - intros a sym Hin. rewrite !in_app_iff in Hin.
    destruct Hin as [Hin | [Hin | [Hin | Hin]]];
      [exact (Hq1 a sym Hin) | exact (Hq2 a sym Hin) | exact (Hq3 a sym Hin)
       | exact (Hq4 a sym Hin)].
  - exact Ho5.
  - exact Herr5.
  - rewrite <- Hsym1, <- Hsym2, <- Hsym3, <- Hsym4. apply Hfatal. lia.
  - rewrite Hstop5. destruct (Z.ltb_spec 2 (deadlock u4 + 1)); [reflexivity | lia].
Qed.

(** The run of the scenario: the register snapshot was never taken and
    the stack pointer was set before the run. *)
Lemma deadlock_late_snapshot_witness :
  exists u4 u5,
    observe_all id (Ex.tracing false) [Ex.at_g; Ex.at_g; Ex.at_g; Ex.at_g] = Returned u4
    /\ deadlock u4 = 2
    /\ stopped u4 = false
    /\ (forall a sym, ~ In (EvFatalDeadlock a sym) (stderr u4))
    /\ observe id u4 Ex.at_g = Returned u5
    /\ stopped u5 = true.
Proof.
  destruct (deadlock_late_snapshot id (Ex.tracing false) 0x4000c8 2 2 2 2 2
              (Ex.machine_with [0x7fff0000; 0]) (Ex.machine_with [0x7fff0000; 0])
              (Ex.machine_with [0x7fff0000; 0]) (Ex.machine_with [0x7fff0000; 0])
              (Ex.machine_with [0x7fff0000; 0]))
    as (u4 & u5 & printed & printed' & Hrun & Hcount & Hstop & Herr & Hquiet & Hfifth & _ & _
        & Hstop5);
    [reflexivity | reflexivity | reflexivity | cbn; lia | discriminate
     | vm_compute; discriminate | reflexivity | reflexivity | reflexivity | reflexivity |].
  exists u4, u5.
  split; [exact Hrun |]. split; [exact Hcount |]. split; [exact Hstop |].
  split; [| split; [exact Hfifth | exact Hstop5]].
  rewrite Herr. exact Hquiet.
Defined.

(** ** The program break *)

Section BrkProofs.

Context {M : Type} {cpu : CPU M}.

Lemma brk_set_mem (m : M) (u : Usercorn M) : brk (set_mem m u) = brk u.
Proof. destruct u. reflexivity. Qed.

Lemma brk_set_brk (a : Z) (u : Usercorn M) : brk (set_brk a u) = a.
Proof. destruct u. reflexivity. Qed.

(** [Brk], one case for each way through the function. *)
Lemma Brk_cases (a : Z) (u : Usercorn M) :
  Brk a u
  = if 0 <? a then
      match cpu_MemMapProt (brk u) (U64.sub a (brk u)) (Z.lor PROT_READ PROT_WRITE) (mem u) with
      | (None, m') => ((a, None), set_brk a (set_mem m' u))
      | (Some e, m') => ((brk u, Some e), set_mem m' u)
      end
    else ((brk u, None), u).
Proof.
  unfold Brk. destruct (0 <? a); [| reflexivity].
  destruct (cpu_MemMapProt _ _ _ _) as [[e |] m'].
  - rewrite brk_set_mem. reflexivity.
  - rewrite brk_set_brk. reflexivity.
Qed.

Lemma Brk_step_le (a : Z) (u : Usercorn M) :
  a = 0 \/ brk u <= a -> brk u <= brk (snd (Brk a u)).
Proof.
  intros Ha. rewrite Brk_cases. destruct (Z.ltb_spec 0 a) as [Hpos | Hle]; [| cbn; lia].
  destruct (cpu_MemMapProt _ _ _ _) as [[e |] m']; cbn [snd].
  - rewrite brk_set_mem. lia.
  - rewrite brk_set_brk. lia.
Qed.

Lemma Brk_trace_head (u : Usercorn M) (addrs : list Z) :
  exists rest, Brk_trace u addrs = brk u :: rest.
Proof. destruct addrs; eexists; reflexivity. Qed.

Lemma Brk_growing_sorted (addrs : list Z) (u : Usercorn M) :
  Brk_growing u addrs -> Sorted Z.le (Brk_trace u addrs).
Proof.
  revert u. induction addrs as [| a rest IH]; intros u Hg; cbn [Brk_trace].
  - repeat constructor.
  - destruct Hg as [Ha Hrest]. constructor; [apply IH, Hrest |].
    destruct (Brk_trace_head (snd (Brk a u)) rest) as [tl ->].
    constructor. apply Brk_step_le, Ha.
Qed.

(** Over an engine that refuses ranges that run past the end of the
    address space, a request below the break is refused: [brk] never
    decreases, whatever the calls. *)
Lemma Brk_sorted_refusing (addrs : list Z) (u : Usercorn M) :
  refuses_wrapping ->
  U64.in_range (brk u) -> Forall U64.in_range addrs ->
  Sorted Z.le (Brk_trace u addrs).
Proof.
  intros Href. revert u. induction addrs as [| a rest IH]; intros u Hu Hall; cbn [Brk_trace].
  - repeat constructor.
  - apply Forall_cons_1 in Hall as [Ha Hrest].
    assert (Hstep : brk u <= brk (snd (Brk a u)) /\ U64.in_range (brk (snd (Brk a u)))).
    { rewrite Brk_cases. unfold U64.in_range in *.
      destruct (Z.ltb_spec 0 a) as [Hpos | Hle]; [| cbn; lia].
      destruct (cpu_MemMapProt _ _ _ _) as [[e |] m'] eqn:Hmap; cbn [snd].
      - rewrite brk_set_mem. lia.
      - rewrite brk_set_brk. split; [| exact Ha].
        destruct (Z.le_gt_cases (brk u) a) as [Hle | Hgt]; [exact Hle |].
        exfalso.
        apply (Href (brk u) (U64.sub a (brk u)) (Z.lor PROT_READ PROT_WRITE) (mem u)).
        + unfold U64.sub, U64.wrap.
          replace ((a - brk u) mod U64.modulus) with (a - brk u + U64.modulus).
          * lia.
          * apply Z.mod_unique with (q := -1); unfold U64.modulus in *; lia.
        + rewrite Hmap. reflexivity. }
    destruct Hstep as [Hle Hin]. constructor; [apply IH; assumption |].
    destruct (Brk_trace_head (snd (Brk a u)) rest) as [tl ->].
    constructor. exact Hle.
Qed.

(** A request at or above the break asks for the range from the break
    to the address; a request below it for a range that ends past the
    address space. *)
Lemma Brk_range (a : Z) (u : Usercorn M) :
  U64.in_range (brk u) -> U64.in_range a ->
  (brk u <= a -> brk u + U64.sub a (brk u) = a)
  /\ (0 < a < brk u -> U64.modulus < brk u + U64.sub a (brk u)).
Proof.
  unfold U64.in_range, U64.sub, U64.wrap, U64.modulus. intros Hu Ha. split; intros Hcmp.
  - rewrite Z.mod_small by lia. lia.
  - replace ((a - brk u) mod 2 ^ 64) with (a - brk u + 2 ^ 64); [lia |].
    apply Z.mod_unique with (q := -1); lia.
Qed.

(** C4 (amended). [Brk(0)] returns the break and changes nothing.
    [Brk(a)] with [a > 0] asks the engine to map the range that starts at
    the break and has [a - brk] bytes (for [a >= brk], the range from the
    break to [a]) read-write; when the engine accepts, the break becomes
    [a] and is returned; when it refuses, the break stays and is returned
    with the error. Along every sequence of calls the break never
    decreases, the engine refusing each range that runs past the end of
    the address space. *)
Theorem Brk_monotone (u : Usercorn M) (a : Z) (addrs : list Z) :
  Brk 0 u = ((brk u, None), u)
  /\ Brk a u
     = (if 0 <? a then
          match cpu_MemMapProt (brk u) (U64.sub a (brk u))
                               (Z.lor PROT_READ PROT_WRITE) (mem u) with
          | (None, m') => ((a, None), set_brk a (set_mem m' u))
          | (Some e, m') => ((brk u, Some e), set_mem m' u)
          end
        else ((brk u, None), u))
  /\ (U64.in_range (brk u) -> U64.in_range a -> brk u <= a ->
      brk u + U64.sub a (brk u) = a)
  /\ (refuses_wrapping -> U64.in_range (brk u) -> Forall U64.in_range addrs ->
      Sorted Z.le (Brk_trace u addrs)).
Proof.
  split; [reflexivity |]. split; [apply Brk_cases |]. split.
  - intros Hu Ha. apply Brk_range; assumption.
  - intros Href Hu Hall. apply Brk_sorted_refusing; assumption.
Qed.

End BrkProofs.

(** The reference engine refuses a range that reaches the end of the
    address space. *)
Lemma Sim_refuses_wrapping : refuses_wrapping (cpu := Sim.cpu).
Proof.
  intros addr size prot m Hwrap. cbn [cpu_MemMapProt Sim.cpu]. unfold Sim.MemMapProt.
  destruct (Z.leb_spec U64.modulus (addr + size)); [| lia].
  rewrite orb_true_r. cbn. discriminate.
Qed.

Lemma Brk_monotone_witness :
  Brk_trace Ex.heap [0x3000; 0x1000; 0; 0x5000] = [0x2000; 0x3000; 0x3000; 0x3000; 0x5000]
  /\ Sorted Z.le (Brk_trace Ex.heap [0x3000; 0x1000; 0; 0x5000]).
Proof.
  split; [reflexivity |].
  destruct (Brk_monotone Ex.heap 0 [0x3000; 0x1000; 0; 0x5000]) as (_ & _ & _ & Hsorted).
  apply Hsorted.
  - exact Sim_refuses_wrapping.
  - vm_compute. split; [discriminate | reflexivity].
  - repeat (apply List.Forall_cons; [vm_compute; split; [discriminate | reflexivity] |]).
    apply List.Forall_nil.
Defined.

(** A request above the break that the engine refuses: the page at the
    break is mapped already. The break stays where it was and is returned
    with the engine's error. *)
Lemma Brk_refused_above :
  brk Ex.full_heap <= 0x11000
  /\ fst (Brk 0x11000 Ex.full_heap) = (0x10000, Some (Err "overlap"))
  /\ brk (snd (Brk 0x11000 Ex.full_heap)) <> 0x11000.
Proof.
  split; [vm_compute; discriminate |].
  split; [reflexivity | vm_compute; discriminate].
Qed.

(** ** Entry selection of [mapBinary] *)

Section MapBinary.

Context {M : Type} {cpu : CPU M} {Hst : Type} {host : Host Hst}.

Lemma PrefixPath_set_mem (m : M) (u : Usercorn M) (h : Hst) (path : string) (force : bool) :
  PrefixPath (set_mem m u) h path force = PrefixPath u h path force.
Proof. destruct u. reflexivity. Qed.

(** The call that loads the interpreter does not recurse: it returns
    at every positive depth, with the same result. *)
Lemma mapBinary_rec_interp (depth : nat) (l : Loader) (u : Usercorn M) (h : Hst) :
  mapBinary_rec (S depth) l true u h = mapBinary_rec 1 l true u h
  /\ is_Some (mapBinary_rec 1 l true u h).
Proof.
  cbn [mapBinary_rec negb]. rewrite andb_false_r.
  split; [reflexivity |]. repeat case_match; eauto.
Qed.

Lemma mapBinary_rec_congr (n n' : nat) (l : Loader) (isInterp : bool)
    (u : Usercorn M) (h : Hst) :
  (forall bin u', mapBinary_rec n bin true u' h = mapBinary_rec n' bin true u' h) ->
  mapBinary_rec (S n) l isInterp u h = mapBinary_rec (S n') l isInterp u h.
Proof.
  intros Heq. cbn [mapBinary_rec].
  repeat (first [rewrite Heq | case_match]); reflexivity.
Qed.

(** Two levels are enough for every call, and the call returns. *)
Lemma mapBinary_rec_depth (depth : nat) (l : Loader) (isInterp : bool)
    (u : Usercorn M) (h : Hst) :
  mapBinary_rec (S (S depth)) l isInterp u h = mapBinary l isInterp u h
  /\ is_Some (mapBinary l isInterp u h).
Proof.
  unfold mapBinary. split.
  - apply mapBinary_rec_congr. intros bin u'.
    rewrite (proj1 (mapBinary_rec_interp depth bin u' h)). reflexivity.
  - assert (Hinner : forall bin u', is_Some (mapBinary_rec 1 bin true u' h))
      by (intros; apply (mapBinary_rec_interp 0)).
    revert Hinner. generalize 1%nat. intros n Hinner. cbn [mapBinary_rec].
    repeat case_match; eauto.
    all: match goal with
    | Hnone : mapBinary_rec _ ?bin true ?u' _ = None |- _ =>
        destruct (Hinner bin u') as [? Hsome]; congruence
    end.
Qed.

(** C5. A successful [mapBinary] of the main binary selects the entry:
    with an interpreter, the interpreter's bias and the entry
    [interpBase + interp.Entry()], next to the binary's own
    [binEntry = base + main.Entry()]; without one, [interpBase = 0] and
    [entry = binEntry = base + main.Entry()]. *)
Theorem mapBinary_entry (l : Loader) (u u' : Usercorn M) (h : Hst) (r : Mapped) :
  mapBinary l false u h = Some ((r, None), u') ->
  (l_Interp l <> "" ->
   exists bin,
     loader_LoadFileArch (PrefixPath u h (l_Interp l) true) (l_Arch l) h = (bin, None)
     /\ interpLoader u' = Some bin
     /\ r_entry r = U64.add (r_interpBase r) (l_Entry bin)
     /\ r_realEntry r = U64.add (r_base r) (l_Entry l))
  /\ (l_Interp l = "" ->
      r_interpBase r = 0
      /\ r_entry r = U64.add (r_base r) (l_Entry l)
      /\ r_realEntry r = U64.add (r_base r) (l_Entry l)).
Proof.
  unfold mapBinary. cbn [mapBinary_rec negb]. intros Hmap.
  repeat (case_match; simplify_eq/=).
  all: match goal with
       | Hi : negb (String.eqb (l_Interp _) "") && true = _ |- _ =>
           rewrite andb_true_r in Hi;
           first [apply negb_true_iff, String.eqb_neq in Hi
                 | apply negb_false_iff, String.eqb_eq in Hi]
       end.
  all: split; intros Hinterp; try congruence.
  all: try (repeat split; reflexivity).
  all: match goal with
       | Hload : loader_LoadFileArch _ _ _ = (?bin, None) |- _ =>
           rewrite PrefixPath_set_mem in Hload; exists bin
       end.
  all: repeat split; try assumption; try reflexivity.
  all: destruct u; reflexivity.
Qed.

End MapBinary.

Lemma mapBinary_entry_witness :
  exists r u',
    mapBinary Ex.hello false (Ex.emulator Ex.hello 0) Ex.linux_host = Some ((r, None), u')
    /\ r_entry r = U64.add (r_interpBase r) (l_Entry Ex.ld_so)
    /\ r_realEntry r = U64.add (r_base r) (l_Entry Ex.hello).
Proof.
  assert (Hres : exists r u',
             mapBinary Ex.hello false (Ex.emulator Ex.hello 0) Ex.linux_host
             = Some ((r, None), u')) by (vm_compute; eauto).
  destruct Hres as (r & u' & Hrun). exists r, u'. split; [exact Hrun |].
  destruct (mapBinary_entry _ _ _ _ _ Hrun) as [Hinterp _].
  destruct Hinterp as (bin & Hload & _ & Hentry & HbinEntry); [discriminate |].
  vm_compute in Hload. injection Hload as <-. split; assumption.
Defined.

(** ** The path sandbox *)

Section Sandbox.

Context {M : Type} {Hst : Type} {host : Host Hst}.

(** [PrefixPath] in terms of the host's answer. With a load prefix and
    an absolute path, it returns the join of both when [force] is set or
    [Stat] of the joined path does not answer ENOENT, and the original
    path otherwise; a relative path, and every path when the prefix is
    empty, comes back unchanged. *)
Lemma PrefixPath_spec (u : Usercorn M) (h : Hst) (path : string) (force : bool) :
  let target := filepath_Join (LoadPrefix u) path in
  let found := negb (os_IsNotExist (os_Stat target h)) in
  (LoadPrefix u <> "" -> filepath_IsAbs path = true ->
   (force = true \/ found = true -> PrefixPath u h path force = target)
   /\ (force = false -> found = false -> PrefixPath u h path force = path))
  /\ (filepath_IsAbs path = false \/ LoadPrefix u = "" -> PrefixPath u h path force = path).
Proof.
  intros target found. unfold PrefixPath. fold target. fold found. split.
  - intros Hprefix Habs. apply String.eqb_neq in Hprefix. rewrite Habs, Hprefix. cbn.
    split.
    + intros [-> | Hfound]; [reflexivity |]. rewrite Hfound, orb_true_r. reflexivity.
    + intros -> ->. reflexivity.
  - intros [Hrel | Hnone].
    + rewrite Hrel. reflexivity.
    + apply String.eqb_eq in Hnone. rewrite Hnone, andb_false_r. reflexivity.
Qed.

(** An answer of [Stat] that is an error other than ENOENT counts as
    found: the joined path is returned without [force]. *)
Lemma PrefixPath_stat_error (u : Usercorn M) (h : Hst) (path : string) (code : Z) :
  LoadPrefix u <> "" -> filepath_IsAbs path = true ->
  os_Stat (filepath_Join (LoadPrefix u) path) h = Some (Errno_ code) ->
  code <> ENOENT ->
  PrefixPath u h path false = filepath_Join (LoadPrefix u) path.
Proof.
  intros Hprefix Habs Hstat Hcode.
  destruct (PrefixPath_spec u h path false) as [Hjoin _].
  destruct (Hjoin Hprefix Habs) as [Hfound _]. apply Hfound. right.
  rewrite Hstat. cbn. apply Z.eqb_neq in Hcode. rewrite Hcode. reflexivity.
Qed.

End Sandbox.

Lemma PrefixPath_spec_witness :
  PrefixPath Ex.rooted Ex.root_host "/lib/x.so" false = "/root/lib/x.so"
  /\ PrefixPath Ex.rooted Ex.root_host "/lib/y.so" true = "/root/lib/y.so"
  /\ PrefixPath Ex.rooted Ex.root_host "/lib/y.so" false = "/lib/y.so"
  /\ PrefixPath Ex.rooted Ex.root_host "lib/x.so" true = "lib/x.so".
Proof.
  split; [| split; [| split]].
  - destruct (PrefixPath_spec Ex.rooted Ex.root_host "/lib/x.so" false) as [Habs _].
    destruct Habs as [Hjoin _]; [discriminate | reflexivity |].
    exact (Hjoin (or_intror eq_refl)).
  - destruct (PrefixPath_spec Ex.rooted Ex.root_host "/lib/y.so" true) as [Habs _].
    destruct Habs as [Hjoin _]; [discriminate | reflexivity |].
    exact (Hjoin (or_introl eq_refl)).
  - destruct (PrefixPath_spec Ex.rooted Ex.root_host "/lib/y.so" false) as [Habs _].
    destruct Habs as [_ Hkeep]; [discriminate | reflexivity |].
    exact (Hkeep eq_refl eq_refl).
  - destruct (PrefixPath_spec Ex.rooted Ex.root_host "lib/x.so" true) as [_ Hrel].
    exact (Hrel (or_introl eq_refl)).
Defined.

(** C6. A joined path that does not exist on the host and is returned
    all the same, without [force]. On the host, [/root/lib] is a regular
    file, so that [/root/lib/x.so] does not exist and [Stat] answers
    ENOTDIR for it; [os.IsNotExist] knows ENOENT only, [exists] becomes
    true, and [PrefixPath] returns the joined path instead of the
    original [/lib/x.so]. *)
Theorem PrefixPath_not_a_directory :
  filepath_Join (LoadPrefix Ex.rooted) "/lib/x.so" = "/root/lib/x.so"
  /\ Sim.exists_on "/root/lib/x.so" Ex.file_root_host = false
  /\ os_Stat "/root/lib/x.so" Ex.file_root_host = Some (Errno_ ENOTDIR)
  /\ PrefixPath Ex.rooted Ex.file_root_host "/lib/x.so" false = "/root/lib/x.so".
Proof.
  split; [reflexivity |]. split; [reflexivity |]. split; [reflexivity |].
  rewrite (PrefixPath_stat_error Ex.rooted Ex.file_root_host "/lib/x.so" ENOTDIR);
    [reflexivity | discriminate | reflexivity | reflexivity | discriminate].
Qed.

(** ** Syscall dispatch *)

Section Dispatch.

Context {M : Type} {Hst : Type}.

Variable name : string.
Variable getArgs : nat -> list Z * option error.

Lemma Syscall_walk_skip (before rest : list (Kernel M Hst)) (w : World M Hst) :
  unserviced before name ->
  Syscall_walk (before ++ rest) name getArgs w = Syscall_walk rest name getArgs w.
Proof.
  induction 1 as [| k before Hk _ IH]; [reflexivity |].
  cbn [app Syscall_walk]. rewrite Hk. exact IH.
Qed.

Lemma Syscall_walk_none (kernels : list (Kernel M Hst)) (w : World M Hst) :
  unserviced kernels name ->
  Syscall_walk kernels name getArgs w = Panicked (KernelNotFound name).
Proof.
  intros Hnone. rewrite <- (app_nil_r kernels), Syscall_walk_skip by exact Hnone.
  reflexivity.
Qed.

(** C7. [Syscall] panics with SyscallMissing on an empty name. On any
    other name the first kernel of the list whose [UsercornSyscall]
    knows the name services the call: its handler gets the arguments
    fetched by [getArgs(|sys.In|)] and its result is returned; when no
    kernel knows the name the call panics with KernelNotFound. Of two
    personalities that both know the name, the first services it. *)
Theorem Syscall_dispatch (kernels : list (Kernel M Hst)) (num : Z) (w : World M Hst) :
  (name = "" -> Syscall kernels num name getArgs w = Panicked (SyscallMissing num))
  /\ (name <> "" ->
      (forall before k after sys args,
          kernels = before ++ k :: after ->
          unserviced before name ->
          UsercornSyscall k name = Some sys ->
          getArgs (length (sys_In sys)) = (args, None) ->
          Syscall kernels num name getArgs w
          = let '(ret, w') := sys_Call sys args (Syscall_enter sys args w) in
            Returned ((ret, None), Syscall_leave ret w'))
      /\ (forall A B sys args,
             kernels = [A; B] ->
             UsercornSyscall A name = Some sys ->
             getArgs (length (sys_In sys)) = (args, None) ->
             exists w1 w2,
               Syscall kernels num name getArgs w
               = Returned ((fst (sys_Call sys args w1), None), w2))
      /\ (unserviced kernels name ->
          Syscall kernels num name getArgs w = Panicked (KernelNotFound name))).
Proof.
  assert (Hfirst : name <> "" ->
    forall before k after sys args,
      kernels = before ++ k :: after ->
      unserviced before name ->
      UsercornSyscall k name = Some sys ->
      getArgs (length (sys_In sys)) = (args, None) ->
      Syscall kernels num name getArgs w
      = let '(ret, w') := sys_Call sys args (Syscall_enter sys args w) in
        Returned ((ret, None), Syscall_leave ret w')).
  { intros Hname before k after sys args -> Hbefore Hk Hargs.
    unfold Syscall. apply String.eqb_neq in Hname. rewrite Hname.
    destruct w as [u h]. rewrite Syscall_walk_skip by exact Hbefore.
    cbn [Syscall_walk]. rewrite Hk, Hargs. unfold Syscall_enter, Syscall_leave.
    assert (Htr : forall e (u0 : Usercorn M), TraceSys (eprint e u0) = TraceSys u0)
      by (intros e u0; destruct u0; reflexivity).
    destruct (TraceSys u && (0 <? stacktraceLen u)); rewrite ?Htr;
      destruct (TraceSys u);
      destruct (sys_Call sys args _) as [ret [u' h']]; reflexivity. }
  split; [| intros Hname; split; [| split]].
  - intros ->. reflexivity.
  - apply Hfirst, Hname.
  - intros A B sys args -> HA Hargs.
    rewrite (Hfirst Hname [] A [B] sys args eq_refl ltac:(constructor) HA Hargs).
    destruct (sys_Call sys args _) as [ret w'] eqn:Hcall.
    exists (Syscall_enter sys args w), (Syscall_leave ret w'). rewrite Hcall. reflexivity.
  - intros Hnone. unfold Syscall. apply String.eqb_neq in Hname. rewrite Hname.
    destruct w as [u h]. apply Syscall_walk_none, Hnone.
Qed.

End Dispatch.

Lemma Syscall_dispatch_witness :
  exists w,
    Syscall [Ex.A; Ex.B] 2 "open" Ex.registers (Ex.emulator Ex.hello 0, Ex.linux_host)
    = Returned ((3, None), w).
Proof.
  destruct (Syscall_dispatch "open" Ex.registers [Ex.A; Ex.B] 2
              (Ex.emulator Ex.hello 0, Ex.linux_host)) as [_ Hserve].
  destruct Hserve as [Hfirst _]; [discriminate |].
  eexists.
  rewrite (Hfirst [] Ex.A [Ex.B] (Ex.open_returning 3) [0x1000; 0; 0] eq_refl
             ltac:(constructor) eq_refl eq_refl).
  reflexivity.
Defined.

(** ** The POSIX personality *)

Lemma substring_all (s : string) (n : nat) :
  (String.length s <= n)%nat -> substring 0 n s = s.
Proof.
  revert n. induction s as [| c s IH]; intros n Hn.
  - destruct n; reflexivity.
  - destruct n as [| n]; [cbn in Hn; lia |].
    cbn [substring]. rewrite IH by (cbn in Hn; lia). reflexivity.
Qed.

Lemma substring_length_le (s : string) (n : nat) :
  (String.length (substring 0 n s) <= n)%nat.
Proof.
  revert n. induction s as [| c s IH]; intros n.
  - destruct n; cbn; lia.
  - destruct n as [| n]; [cbn; lia |].
    cbn [substring String.length]. specialize (IH n). lia.
Qed.

Section PosixKernel.

Context {M : Type} {cpu : CPU M} {Hst : Type} {host : Host Hst}.

(** Under a Linux guest, [Readlink] of [/proc/self/exe] with a buffer
    size that fits an [int], [1 <= size < 2^63], and a buffer that the
    guest can write: the path of the executable, cut to at most [size-1]
    bytes and followed by a NUL, is written at the buffer and the length
    of the (possibly cut) path is returned. For the executable
    [/tmp/hello] and [size = 64], the bytes written are those of
    "/tmp/hello\0" and the result is 10. *)
Lemma Readlink_proc_self_exe (u : Usercorn M) (h : Hst) (buf size : Z) (m' : M) :
  os u = "linux" ->
  1 <= size < 2 ^ 63 ->
  let name := substring 0 (Z.to_nat (size - 1)) (exe u) in
  cpu_MemWrite buf (list_byte_of_string (name ++ posix.NUL)) (mem u) = (None, m') ->
  posix.Readlink "/proc/self/exe" buf size (u, h)
  = Returned (Z.of_nat (String.length name), (set_mem m' u, h))
  /\ Z.of_nat (String.length name) <= size - 1
  /\ (exe u = "/tmp/hello" -> size = 64 ->
      list_byte_of_string (name ++ posix.NUL)
      = list_byte_of_string ("/tmp/hello" ++ posix.NUL)
      /\ Z.of_nat (String.length name) = 10).
Proof.
  intros Hos Hsize name Hwrite. split; [| split].
  - unfold posix.Readlink. rewrite Hos.
    change (String.eqb "/proc/self/exe" "/proc/self/exe" && String.eqb "linux" "linux")
      with true. cbn iota.
    assert (Hint : I64.sub (U64.to_int64 size) 1 = size - 1).
    { unfold I64.sub, I64.wrap. unfold U64.to_int64 at 2.
      destruct (Z.ltb_spec size (2 ^ 63)); [| lia]. apply to_int64_wrap. lia. }
    assert (Hhi : U64.sub size 1 = size - 1).
    { unfold U64.sub. apply wrap_small. unfold U64.modulus. lia. }
    rewrite Hint, Hhi.
    assert (Hname :
      (if size - 1 <? Z.of_nat (String.length (exe u))
       then posix.slice_to (exe u) (size - 1)
       else Returned (exe u)) = Returned name).
    { destruct (Z.ltb_spec (size - 1) (Z.of_nat (String.length (exe u)))) as [Hlt | Hge].
      - unfold posix.slice_to.
        destruct (Z.leb_spec (size - 1) (Z.of_nat (String.length (exe u)))); [| lia].
        reflexivity.
      - unfold name. rewrite substring_all by lia. reflexivity. }
    rewrite Hname. cbn [obind]. unfold posix.Buf_Pack. rewrite Hwrite. reflexivity.
  - pose proof (substring_length_le (exe u) (Z.to_nat (size - 1))). fold name in H. lia.
  - intros Hexe ->. unfold name. rewrite Hexe. split; reflexivity.
Qed.

(** C9. [Close] of descriptor 2 returns 0 and leaves the host as it is:
    the host's close is not called. For every other descriptor the host
    closes it and the result is the [Errno] of the host's answer. *)
Theorem Close_keeps_stderr (u : Usercorn M) (h : Hst) (fd : Z) :
  posix.Close 2 (u, h) = (0, (u, h))
  /\ (fd <> 2 ->
      posix.Close fd (u, h)
      = (posix.Errno (fst (syscall_Close fd h)), (u, snd (syscall_Close fd h)))).
Proof.
  split; [reflexivity |].
  intros Hfd. unfold posix.Close. apply Z.eqb_neq in Hfd. rewrite Hfd.
  destruct (syscall_Close fd h). reflexivity.
Qed.

(** C8. Under a Linux guest, [Readlink] of [/proc/self/exe] with a
    buffer size of 0, or one above 2^63, does not write the path and
    does not return: the test [len(name) > int(size)-1] compares with a
    negative number, and the slice expression [name[:size-1]] panics,
    whatever the executable's path is. *)
Theorem Readlink_size_panics (u : Usercorn M) (h : Hst) (buf size : Z) :
  os u = "linux" ->
  Z.of_nat (String.length (exe u)) < 2 ^ 63 ->
  size = 0 \/ 2 ^ 63 < size < 2 ^ 64 ->
  posix.Readlink "/proc/self/exe" buf size (u, h)
  = Panicked (SliceBounds (U64.sub size 1) (Z.of_nat (String.length (exe u)))).
Proof.
  intros Hos Hlen Hsize. unfold posix.Readlink. rewrite Hos.
  change (String.eqb "/proc/self/exe" "/proc/self/exe" && String.eqb "linux" "linux")
    with true. cbn iota.
  assert (Hint : I64.sub (U64.to_int64 size) 1 < 0).
  { unfold I64.sub, I64.wrap, U64.to_int64 at 2, U64.modulus.
    destruct Hsize as [-> | Hsize].
    - vm_compute. reflexivity.
    - destruct (Z.ltb_spec size (2 ^ 63)); [lia |].
      rewrite to_int64_wrap by lia. lia. }
  assert (Hhi : 2 ^ 63 <= U64.sub size 1).
  { unfold U64.sub. destruct Hsize as [-> | Hsize].
    - vm_compute. discriminate.
    - rewrite wrap_small by (unfold U64.modulus; lia). lia. }
  destruct (Z.ltb_spec (I64.sub (U64.to_int64 size) 1) (Z.of_nat (String.length (exe u))));
    [| lia].
  unfold posix.slice_to.
  destruct (Z.leb_spec (U64.sub size 1) (Z.of_nat (String.length (exe u)))); [lia |].
  reflexivity.
Qed.

(** [Mmap] does not look at [prot] and [flags]: any two requests that
    differ only there act alike; [Mmap2] is [Mmap]. Without a descriptor,
    or with a size that [make] allocates, the region comes from the
    facade's [Mmap(addrHint, size)], which takes no protection, and the
    address the facade returned is the result, whatever its error and
    whatever the duplication, the read from the descriptor or the write
    to the guest did. *)
Lemma Mmap_ignores_prot (maxAlloc addrHint size prot flags prot' flags' fd off : Z)
    (u : Usercorn M) (h : Hst) :
  posix.Mmap maxAlloc addrHint size prot flags fd off (u, h)
  = posix.Mmap maxAlloc addrHint size prot' flags' fd off (u, h)
  /\ posix.Mmap2 maxAlloc addrHint size prot flags fd off (u, h)
     = posix.Mmap maxAlloc addrHint size prot flags fd off (u, h)
  /\ (fd <= 0 \/ size < 2 ^ 63 /\ size <= maxAlloc ->
      exists u' h' data,
        posix.Mmap maxAlloc addrHint size prot flags fd off (u, h)
        = Returned (fst (fst (cpu_Mmap addrHint size (mem u))), (u', h'))
        /\ mem u'
           = let '((addr, _), m) := cpu_Mmap addrHint size (mem u) in
             if 0 <? fd then snd (cpu_MemWrite addr data m) else m).
Proof.
  split; [reflexivity |]. split; [reflexivity |].
  intros Hok. unfold posix.Mmap.
  destruct (cpu_Mmap addrHint size (mem u)) as [[addr err] m].
  destruct (Z.ltb_spec 0 fd) as [Hfd | Hfd].
  - destruct Hok as [Hle | [Hint Hmax]]; [lia |].
    destruct (syscall_Dup fd h) as [[fd2 e2] h2].
    unfold posix.make_bytes.
    destruct (Z.ltb_spec size (2 ^ 63)); [| lia].
    destruct (Z.leb_spec size maxAlloc); [| lia]. cbn [andb obind].
    destruct (file_Read fd2 size (file_Seek fd2 off h2)) as [[data e3] h3].
    assert (Hmem : mem (set_mem m u) = m) by (destruct u; reflexivity).
    rewrite Hmem.
    destruct (cpu_MemWrite addr data m) as [e4 m4] eqn:Hw.
    destruct (syscall_Close fd2 h3) as [e5 h5].
    eexists _, _, data. split; [reflexivity |]. cbn [fst snd]. rewrite Hw.
    destruct u; reflexivity.
  - eexists _, _, []. split; [reflexivity |]. destruct u; reflexivity.
Qed.

(** C10. [Mmap] and [Mmap2] with a descriptor above 0 and a size that
    does not fit an [int], or that is beyond what the runtime allocates,
    do not return the address of the region: [make([]byte, size)]
    panics, after the region was requested from the facade and the
    descriptor duplicated. *)
Theorem Mmap_size_panics (maxAlloc addrHint size prot flags fd off : Z)
    (u : Usercorn M) (h : Hst) :
  0 < fd ->
  2 ^ 63 <= size \/ maxAlloc < size ->
  posix.Mmap maxAlloc addrHint size prot flags fd off (u, h) = Panicked (MakeSliceLen size)
  /\ posix.Mmap2 maxAlloc addrHint size prot flags fd off (u, h)
     = Panicked (MakeSliceLen size).
Proof.
  intros Hfd Hsize.
  assert (Hmake : posix.make_bytes maxAlloc size = Panicked (MakeSliceLen size)).
  { unfold posix.make_bytes.
    destruct (Z.ltb_spec size (2 ^ 63)); destruct (Z.leb_spec size maxAlloc);
      try reflexivity; lia. }
  assert (Hmmap :
    posix.Mmap maxAlloc addrHint size prot flags fd off (u, h) = Panicked (MakeSliceLen size)).
  { unfold posix.Mmap.
    destruct (cpu_Mmap addrHint size (mem u)) as [[addr err] m].
    destruct (Z.ltb_spec 0 fd); [| lia].
    destruct (syscall_Dup fd h) as [[fd2 e2] h2].
    rewrite Hmake. reflexivity. }
  split; [exact Hmmap | exact Hmmap].
Qed.

End PosixKernel.

Lemma Readlink_proc_self_exe_witness :
  exists u',
    posix.Readlink "/proc/self/exe" 0x10000 64 (Ex.guest, Ex.linux_host)
    = Returned (10, (u', Ex.linux_host))
    /\ Sim.MemRead 0x10000 11 (mem u')
       = map Some (list_byte_of_string ("/tmp/hello" ++ posix.NUL)).
Proof.
  assert (Hw : exists m',
             cpu_MemWrite 0x10000 (list_byte_of_string ("/tmp/hello" ++ posix.NUL)) (mem Ex.guest)
             = (None, m')) by (vm_compute; eauto).
  destruct Hw as [m' Hw].
  destruct (Readlink_proc_self_exe Ex.guest Ex.linux_host 0x10000 64 m') as [Hret _];
    [reflexivity | lia | exact Hw |].
  exists (set_mem m' Ex.guest). split; [exact Hret |].
  vm_compute in Hw. injection Hw as <-. vm_compute. reflexivity.
Defined.

Lemma Close_keeps_stderr_witness :
  posix.Close 1 (Ex.guest, Ex.linux_host)
  = (0, (Ex.guest, snd (Sim.Close 1 Ex.linux_host)))
  /\ posix.Close 7 (Ex.guest, Ex.linux_host) = (U64.wrap (- Sim.EBADF), (Ex.guest, Ex.linux_host))
  /\ Sim.sh_fds (snd (snd (posix.Close 2 (Ex.guest, Ex.linux_host)))) !! 2 = Some ([], 0).
Proof.
  split; [| split].
  - destruct (Close_keeps_stderr Ex.guest Ex.linux_host 1) as [_ Hother].
    rewrite Hother by discriminate. reflexivity.
  - destruct (Close_keeps_stderr Ex.guest Ex.linux_host 7) as [_ Hother].
    rewrite Hother by discriminate. reflexivity.
  - destruct (Close_keeps_stderr Ex.guest Ex.linux_host 2) as [Hstderr _].
    rewrite Hstderr. reflexivity.
Defined.

(** On the reference engine: a request for no access at all ([PROT_NONE])
    gets a read-write region, and a descriptor that is not open (the
    duplication and the read fail) still yields the region's address. *)
Lemma Mmap_default_protection :
  exists a u h a' w',
    posix.Mmap (2 ^ 48) 0 0x1000 PROT_NONE 0 5 0 (Ex.guest, Ex.file_host) = Returned (a, (u, h))
    /\ posix.Mmap (2 ^ 48) 0 0x1000 PROT_NONE 0 9 0 (Ex.guest, Ex.file_host) = Returned (a', w')
    /\ a = 0x11000
    /\ Sim.prot_at (mem u) a = Some (Z.lor PROT_READ PROT_WRITE)
    /\ Sim.MemRead a 4 (mem u) = map Some (list_byte_of_string "ELF!")
    /\ a' = 0x11000.
Proof.
  eexists _, _, _, _, _.
  split; [vm_compute; reflexivity |]. split; [vm_compute; reflexivity |].
  vm_compute. repeat split; reflexivity.
Qed.

Lemma Readlink_size_panics_witness :
  posix.Readlink "/proc/self/exe" 0x10000 (2 ^ 64 - 1) (Ex.guest, Ex.linux_host)
  = Panicked (SliceBounds (2 ^ 64 - 2) 10)
  /\ posix.Readlink "/proc/self/exe" 0x10000 0 (Ex.guest, Ex.linux_host)
     = Panicked (SliceBounds (2 ^ 64 - 1) 10).
Proof.
  split.
  - apply (Readlink_size_panics Ex.guest Ex.linux_host 0x10000 (2 ^ 64 - 1));
      [reflexivity | reflexivity | right; lia].
  - apply (Readlink_size_panics Ex.guest Ex.linux_host 0x10000 0);
      [reflexivity | reflexivity | left; reflexivity].
Defined.

Lemma Mmap_size_panics_witness :
  posix.Mmap (2 ^ 48) 0 (2 ^ 64 - 1) (Z.lor PROT_READ PROT_WRITE) 0 5 0 (Ex.guest, Ex.file_host)
  = Panicked (MakeSliceLen (2 ^ 64 - 1))
  /\ posix.Mmap2 (2 ^ 48) 0x20000 (2 ^ 48 + 0x1000) PROT_READ 0 5 0 (Ex.guest, Ex.file_host)
     = Panicked (MakeSliceLen (2 ^ 48 + 0x1000)).
Proof.
  split.
  - apply (Mmap_size_panics (2 ^ 48) 0 (2 ^ 64 - 1) (Z.lor PROT_READ PROT_WRITE) 0 5 0
             Ex.guest Ex.file_host); [lia | left; lia].
  - apply (Mmap_size_panics (2 ^ 48) 0x20000 (2 ^ 48 + 0x1000) PROT_READ 0 5 0
             Ex.guest Ex.file_host); [lia | right; lia].
Defined.
